(** * MixMatch controller: semi-supervised loss, label guessing, mixup
      coefficient, interleaving and the EMA shadow updater

    Shallow embedding of [src/models/mix_match/controller.py].

    Numbers are real numbers: the development verifies the arithmetic the
    code performs, not its floating-point rounding.  Tensors of arbitrary rank
    (the entries of a [state_dict]) carry their shape and a flat list of
    entries; the 2-d tensors of the training routine (a batch of logits or of
    soft labels) are lists of rows.  In-place tensor methods ([mul_], [add_],
    [copy_]) are written as functions that return the new content of the
    tensor they mutate, and the objects that own those tensors thread them
    explicitly.  A Python exception is [None]. *)

From Stdlib Require Import Reals Lra Lia List Arith Bool ZArith Permutation.
Import ListNotations.

Open Scope R_scope.

(** ** A small error monad *)

Definition bind {A B : Type} (m : option A) (k : A -> option B) : option B :=
  match m with
  | Some a => k a
  | None => None
  end.

Notation "x <- m ;; k" := (bind m (fun x => k))
  (at level 61, m at next level, right associativity).

(** ** Lists of reals *)

Fixpoint map2 {A B C : Type} (f : A -> B -> C) (l : list A) (l' : list B)
  : list C :=
  match l, l' with
  | a :: t, b :: t' => f a b :: map2 f t t'
  | _, _ => []
  end.

Definition Rsum (l : list R) : R := fold_right Rplus 0 l.

(** [sum_upto n f] is [f 0 + f 1 + ... + f (n-1)]. *)
Fixpoint sum_upto (n : nat) (f : nat -> R) : R :=
  match n with
  | O => 0
  | S k => sum_upto k f + f k
  end.

(** ** Tensors of any rank *)

Module Tensor.

Record tensor : Type := mkTensor { shape : list nat; data : list R }.

Definition rank (t : tensor) : nat := length (shape t).

Definition numel (sh : list nat) : nat := fold_right Nat.mul 1%nat sh.

(** [torch.full]: every entry of a tensor of shape [sh] is [v]. *)
Definition full (sh : list nat) (v : R) : tensor :=
  mkTensor sh (repeat v (numel sh)).

Definition same_shape (a b : tensor) : bool :=
  if list_eq_dec Nat.eq_dec (shape a) (shape b) then true else false.

(** [t.mul_(a)] and [t * a] with a Python float [a]: the former mutates
    [t], the latter builds a tensor; both have this content. *)
Definition mul_scalar (t : tensor) (a : R) : tensor :=
  mkTensor (shape t) (map (fun x => x * a) (data t)).

(** [t.add_(other)].  Tensors of one shape are added entry by entry.  For
    unequal shapes PyTorch broadcasts [other] when it can and raises
    otherwise; the model has the error only. *)
Definition add_ (t other : tensor) : option tensor :=
  if same_shape t other
  then Some (mkTensor (shape t) (map2 Rplus (data t) (data other)))
  else None.

(** [t.copy_(src)]: the entries of [src] overwrite those of [t] (same
    treatment of unequal shapes as [add_]). *)
Definition copy_ (t src : tensor) : option tensor :=
  if same_shape t src
  then Some (mkTensor (shape t) (data src))
  else None.

End Tensor.
Import Tensor.

(** ** class WeightEMA *)

Module WeightEMA.

(** [params] and [ema_params] are the tensors of
    [model.state_dict().values()] and [ema_model.state_dict().values()]:
    they share storage with the two networks, so their content here is the
    content of the trained and of the shadow network.  [build] makes the two
    networks with two constructor calls, so no tensor of one list is a
    tensor of the other, and a [state_dict] of these networks lists no tensor
    twice: the entries are independent values. *)
Record t : Type := mk {
  alpha : R;
  wd : R;
  params : list tensor;
  ema_params : list tensor
}.

(** The loop of [__init__]: [param.data.copy_(ema_param.data)] over
    [zip(params, ema_params)].  Returns the new content of [params]; what
    lies beyond the shorter list is not visited. *)
Fixpoint init_loop (params ema_params : list tensor)
  : option (list tensor) :=
  match params, ema_params with
  | param :: ps, ema_param :: es =>
      param' <- copy_ param ema_param ;;
      ps' <- init_loop ps es ;;
      Some (param' :: ps')
  | _, _ => Some params
  end.

(** [WeightEMA(model, ema_model, alpha)], with [learning_rate] standing for
    [exp.ARGS['optimizer']['learning_rate']]. *)
Definition init (learning_rate : R) (model ema_model : list tensor)
  (alpha : R) : option t :=
  let wd := 0.02 * learning_rate in
  params' <- init_loop model ema_model ;;
  Some (mk alpha wd params' ema_model).

(** The body of the loop of [step] for one pair. *)
Definition step_pair (alpha wd : R) (param ema_param : tensor)
  : option (tensor * tensor) :=
  let one_minus_alpha := 1 - alpha in
  if (0 <? length (shape param))%nat then
    let ema1 := mul_scalar ema_param alpha in
    ema2 <- add_ ema1 (mul_scalar param one_minus_alpha) ;;
    let param' := mul_scalar param (1 - wd) in
    Some (param', ema2)
  else Some (param, ema_param).

Fixpoint step_loop (alpha wd : R) (params ema_params : list tensor)
  : option (list tensor * list tensor) :=
  match params, ema_params with
  | param :: ps, ema_param :: es =>
      pe <- step_pair alpha wd param ema_param ;;
      rest <- step_loop alpha wd ps es ;;
      Some (fst pe :: fst rest, snd pe :: snd rest)
  | _, _ => Some (params, ema_params)
  end.

Definition step (self : t) : option t :=
  r <- step_loop (alpha self) (wd self) (params self) (ema_params self) ;;
  Some (mk (alpha self) (wd self) (fst r) (snd r)).

(** Every visited pair can be processed: a pair that [step] blends has one
    shape. *)
Fixpoint step_ready (params ema_params : list tensor) : bool :=
  match params, ema_params with
  | param :: ps, ema_param :: es =>
      ((rank param =? 0)%nat || same_shape ema_param param)
      && step_ready ps es
  | _, _ => true
  end.

Fixpoint init_ready (params ema_params : list tensor) : bool :=
  match params, ema_params with
  | param :: ps, ema_param :: es =>
      same_shape param ema_param && init_ready ps es
  | _, _ => true
  end.

End WeightEMA.

(** ** 2-d tensors: a batch, one row per sample *)

Module Matrix.

Definition matrix : Type := list (list R).

(** Two batches have one shape when their rows have the same lengths. *)
Definition same_shape (a b : matrix) : bool :=
  if list_eq_dec Nat.eq_dec (map (@length R) a) (map (@length R) b)
  then true else false.

(** An operator applied entry by entry ([+], [-], [*] of two tensors);
    unequal shapes are an error, as for [Tensor.add_]. *)
Definition ewise (f : R -> R -> R) (a b : matrix) : option matrix :=
  if same_shape a b then Some (map2 (map2 f) a b) else None.

Definition add : matrix -> matrix -> option matrix := ewise Rplus.
Definition sub : matrix -> matrix -> option matrix := ewise Rminus.
Definition mul : matrix -> matrix -> option matrix := ewise Rmult.

(** [m / a], [m ** a] with a Python float [a]. *)
Definition div_scalar (m : matrix) (a : R) : matrix :=
  map (map (fun x => x / a)) m.
Definition pow_scalar (m : matrix) (a : R) : matrix :=
  map (map (fun x => Rpower x a)) m.
(** [m ** 2] *)
Definition square (m : matrix) : matrix := map (map (fun x => x ^ 2)) m.

Definition softmax_row (x : list R) : list R :=
  let s := Rsum (map exp x) in map (fun v => exp v / s) x.

(** [torch.softmax(m, dim=1)] *)
Definition softmax (m : matrix) : matrix := map softmax_row m.

(** [F.log_softmax(m, dim=1)], the logarithm of the softmax. *)
Definition log_softmax (m : matrix) : matrix :=
  map (fun x => map ln (softmax_row x)) m.

(** [torch.sum(m, dim=1)] *)
Definition sum_dim1 (m : matrix) : list R := map Rsum m.

(** [m / m.sum(dim=1, keepdim=True)]: the column of row sums is broadcast
    along each row. *)
Definition div_row_sums (m : matrix) : matrix :=
  map (fun row => map (fun x => x / Rsum row) row) m.

(** [torch.mean] of a 1-d and of a 2-d tensor: over all entries.  (Of a
    tensor without entries PyTorch gives NaN; here it is [0 / 0].) *)
Definition mean1 (v : list R) : R := Rsum v / INR (length v).
Definition mean (m : matrix) : R := mean1 (concat m).

(** [m] has [n] rows of [c] entries. *)
Definition dims (n c : nat) (m : matrix) : Prop :=
  length m = n /\ Forall (fun row => length row = c) m.

(** A row that is positive and, unless it is empty, adds up to one. *)
Definition unit_row (row : list R) : Prop :=
  (row = [] \/ Rsum row = 1) /\ Forall (fun x => 0 < x) row.

(** Entry [(i, j)]. *)
Definition entry (m : matrix) (i j : nat) : R := nth j (nth i m []) 0.

End Matrix.
Import Matrix.

(** ** class SemiLoss *)

Module SemiLoss.

Record t : Type := mk { lambda_u : R; epochs : R }.

(** [np.clip(x, lo, hi)] is [minimum(maximum(x, lo), hi)]. *)
Definition np_clip (x lo hi : R) : R := Rmin (Rmax x lo) hi.

Definition linear_rampup (current rampup_length : R) : R :=
  if Req_dec_T rampup_length 0 then 1
  else
    let current := np_clip (current / rampup_length) 0 1 in
    current.

(** [__call__]: the triple [(Lx, Lu, weight)]. *)
Definition call (self : t) (outputs_x targets_x outputs_u targets_u : matrix)
  (epoch : R) : option (R * R * R) :=
  let probs_u := softmax outputs_u in
  prod <- mul (log_softmax outputs_x) targets_x ;;
  let Lx := - mean1 (sum_dim1 prod) in
  diff <- sub probs_u targets_u ;;
  let Lu := mean (square diff) in
  Some (Lx, Lu, lambda_u self * linear_rampup epoch (epochs self)).

(** *** The losses as the specification words them *)

(** Negative mean over the [n] samples of the sum over the [c] classes of
    [target * log_softmax(logit)]. *)
Definition spec_labeled_loss (n c : nat) (logits targets : matrix) : R :=
  - (sum_upto n (fun i =>
       sum_upto c (fun k =>
         entry targets i k * ln (entry (softmax logits) i k)))
     / INR n).

(** Mean squared error between [softmax(logits)] and the soft targets:
    the squared differences of all [n * c] entries, averaged. *)
Definition spec_unlabeled_loss (n c : nat) (logits targets : matrix) : R :=
  sum_upto n (fun i =>
    sum_upto c (fun k =>
      (entry (softmax logits) i k - entry targets i k) ^ 2))
  / INR (n * c).

(** The weight as the specification words it: [lambda_u] times the progress
    fraction clamped to the unit interval. *)
Definition clamp01 (x : R) : R :=
  if Rlt_dec x 0 then 0 else if Rlt_dec 1 x then 1 else x.

End SemiLoss.

(** ** MixMatchController.routine: label guessing and the mixup coefficient *)

Module Routine.

(** Lines 57-59: [p], [pt] and [targets_u] from the logits of the two
    views of the unlabeled batch. *)
Definition p (outputs_u1 outputs_u2 : matrix) : option matrix :=
  s <- add (softmax outputs_u1) (softmax outputs_u2) ;;
  Some (div_scalar s 2).

(** [1 / T] is a division of Python floats: it raises [ZeroDivisionError]
    when [T] is zero.  The entries of [p] are positive reals, for which [**]
    is the real power. *)
Definition pt (T : R) (p : matrix) : option matrix :=
  if Req_dec_T T 0 then None else Some (pow_scalar p (1 / T)).

Definition targets_u (T : R) (outputs_u1 outputs_u2 : matrix)
  : option matrix :=
  p <- p outputs_u1 outputs_u2 ;;
  pt <- pt T p ;;
  Some (div_row_sums pt).

(** Line 67, [l = max(l, 1 - l)], for [l] the draw of line 66. *)
Definition l (draw : R) : R := Rmax draw (1 - draw).

End Routine.

(** ** interleave *)

Module Interleave.

Section Defs.

Context {A : Type}.

(** The widths of the slices a chunk of [batch] rows is cut into when
    there are [n] chunks. *)
Variable widths : nat -> nat -> list nat.

(** Modelled from the spec: the cutting of a chunk that [interleave] (not
    among the sources) starts with; consecutive slices of [v] of the given
    widths. *)
Fixpoint cut (ws : list nat) (v : list A) : list (list A) :=
  match ws with
  | [] => []
  | w :: ws' => firstn w v :: cut ws' (skipn w v)
  end.

(** Modelled from the spec: the exchange of slices inside [interleave] (not
    among the sources).  [donor j s] is the chunk that gives its slice [s] to
    chunk [j]: chunk 0 takes slice [s] of chunk [s], which takes slice [s] of
    chunk 0 in exchange; every other slice stays in its chunk. *)
Definition donor (j s : nat) : nat :=
  if (j =? 0)%nat then s else if (s =? j)%nat then 0%nat else j.

(** Modelled from the spec: [interleave] of
    [src/models/mix_match/utils.py], which is not among the sources.  Each
    of the [n] chunks is cut into [n] slices, slices are exchanged
    between chunk 0 and the other chunks, and the slices of each chunk are
    joined again.  The specification does not fix the slice widths; they
    are the parameter [widths]. *)
Definition interleave (xy : list (list A)) (batch : nat)
  : list (list A) :=
  let n := length xy in
  let slices := map (cut (widths batch n)) xy in
  map (fun j =>
         concat (map (fun s => nth s (nth (donor j s) slices []) [])
                     (seq 0 n)))
      (seq 0 n).

End Defs.

(** Modelled from the spec: one choice of slice widths for [interleave] (not
    among the sources), of [n] widths that add up to [batch] and differ by at
    most one, the wider slices last. *)
Fixpoint even_widths (batch n : nat) : list nat :=
  match n with
  | O => []
  | S k => (batch / n)%nat :: even_widths (batch - batch / n) k
  end.

End Interleave.

(** ** Integer indexing of tensors *)

Module Index.

(** A Python index into a dimension of [size] entries: a negative index
    counts from the end, and an index outside [-size, size) is an
    [IndexError]. *)
Definition wrap (size : nat) (i : Z) : option nat :=
  if ((0 <=? i) && (i <? Z.of_nat size))%Z then Some (Z.to_nat i)
  else if ((- Z.of_nat size <=? i) && (i <? 0))%Z
       then Some (Z.to_nat (i + Z.of_nat size))
       else None.

Fixpoint update {A : Type} (l : list A) (i : nat) (v : A) : list A :=
  match l, i with
  | [], _ => []
  | _ :: t, O => v :: t
  | x :: t, S j => x :: update t j v
  end.

(** The two index tensors of [m[rows, cols]] are broadcast against each
    other: they have one length, or one of them has a single entry. *)
Definition broadcast_indices (rows : list nat) (cols : list Z)
  : option (list (nat * Z)) :=
  if (length rows =? length cols)%nat then Some (combine rows cols)
  else match rows, cols with
       | _, [c] => Some (map (fun r => (r, c)) rows)
       | [r], _ => Some (map (fun c => (r, c)) cols)
       | _, _ => None
       end.

(** [m[r, c] = v] for one pair of indices. *)
Definition set_entry (m : matrix) (r : nat) (c : Z) (v : R) : option matrix :=
  match nth_error m r with
  | None => None
  | Some row =>
      k <- wrap (length row) c ;;
      Some (update m r (update row k v))
  end.

(** [m[rows, cols] = v], the pairs of indices taken in order. *)
Fixpoint index_put (m : matrix) (ix : list (nat * Z)) (v : R)
  : option matrix :=
  match ix with
  | [] => Some m
  | (r, c) :: rest => m' <- set_entry m r c v ;; index_put m' rest v
  end.

(** [m[idx]] for a tensor [idx] of row numbers, such as [torch.randperm]
    gives: the rows of [m] in the order of [idx]. *)
Fixpoint index_rows (m : matrix) (idx : list nat) : option matrix :=
  match idx with
  | [] => Some []
  | i :: rest =>
      row <- nth_error m i ;;
      rows <- index_rows m rest ;;
      Some (row :: rows)
  end.

End Index.

(** ** MixMatchController.routine: one-hot labels and mixup *)

Module Train.

(** [torch.zeros(n, c)] *)
Definition zeros (n c : nat) : matrix := repeat (repeat 0 c) n.

(** Lines 49-50: [targets_l_oh] from the integer labels [targets_l], for
    [batch_size = self.data.batch_size['train']] and
    [num_classes = self.get_dims('data.targets')]. *)
Definition targets_l_oh (batch_size num_classes : nat) (targets_l : list Z)
  : option matrix :=
  let targets_l_oh := zeros batch_size num_classes in
  ix <- Index.broadcast_indices (seq 0 batch_size) targets_l ;;
  Index.index_put targets_l_oh ix 1.

(** [a * m] with a Python float [a]. *)
Definition scale (a : R) (m : matrix) : matrix := map (map (Rmult a)) m.

(** Lines 66-74, on the concatenated batch.  [draw] is the value of
    [np.random.beta(alpha, alpha)] and [idx] the value of
    [torch.randperm(all_inputs.size(0))].  A sample of [all_inputs] is
    an image; its entries are listed in one row. *)
Definition mixup (draw : R) (idx : list nat) (all_inputs all_targets : matrix)
  : option (matrix * matrix) :=
  let l := Routine.l draw in
  let input_a := all_inputs in
  input_b <- Index.index_rows all_inputs idx ;;
  let target_a := all_targets in
  target_b <- Index.index_rows all_targets idx ;;
  mixed_input <- add (scale l input_a) (scale (1 - l) input_b) ;;
  mixed_target <- add (scale l target_a) (scale (1 - l) target_b) ;;
  Some (mixed_input, mixed_target).

(** [torch.cat(ms, dim=0)]: the rows of the tensors one after the other;
    the tensors have to agree on the length of a row. *)
Definition cat (ms : list matrix) : option matrix :=
  let rows := concat ms in
  match rows with
  | [] => Some []
  | row :: _ =>
      if forallb (fun r => (length r =? length row)%nat) rows
      then Some rows else None
  end.

(** Lines 49-74 of the training branch: from the labels, the three batches
    of samples and the logits [outputs_u1 = classifier(inputs_u1)],
    [outputs_u2 = classifier(inputs_u2)] of the two views to
    [(mixed_input, mixed_target)]. *)
Definition mixed (batch_size num_classes : nat) (targets_l : list Z)
  (inputs_l inputs_u1 inputs_u2 outputs_u1 outputs_u2 : matrix)
  (T draw : R) (idx : list nat) : option (matrix * matrix) :=
  targets_l_oh <- targets_l_oh batch_size num_classes targets_l ;;
  targets_u <- Routine.targets_u T outputs_u1 outputs_u2 ;;
  all_inputs <- cat [inputs_l; inputs_u1; inputs_u2] ;;
  all_targets <- cat [targets_l_oh; targets_u; targets_u] ;;
  mixup draw idx all_inputs all_targets.

(** Lines 89-96: the call of the loss and [self.losses.classifier].
    [train_epochs] is [exp.ARGS['train']['epochs']], [info_epoch] and
    [info_data_steps] are [exp.INFO['epoch']] and [exp.INFO['data_steps']];
    the division of line 91 is a division of Python numbers and raises
    [ZeroDivisionError] when [train_epochs] is zero. *)
Definition losses_classifier (loss : SemiLoss.t)
  (train_epochs info_epoch info_data_steps : R)
  (logits_l mixed_target_l logits_u mixed_target_u : matrix) : option R :=
  if Req_dec_T train_epochs 0 then None
  else
    r <- SemiLoss.call loss logits_l mixed_target_l logits_u mixed_target_u
           (info_epoch + info_data_steps / train_epochs) ;;
    let '(Ll, Lu, w) := r in
    Some (Ll + w * Lu).

(** A soft label: non-negative entries that add up to one. *)
Definition distribution (row : list R) : Prop :=
  Rsum row = 1 /\ Forall (fun x => 0 <= x) row.

(** The sum over the samples of entry [k]. *)
Definition column_total (m : matrix) (k : nat) : R :=
  Rsum (map (fun row => nth k row 0) m).

End Train.

(** ** Consecutive EMA steps *)

Module Steps.

(** [n] calls of [WeightEMA.step] in a row, nothing else touching the
    tensors in between. *)
Fixpoint steps (n : nat) (self : WeightEMA.t) : option WeightEMA.t :=
  match n with
  | O => Some self
  | S k => self' <- WeightEMA.step self ;; steps k self'
  end.

End Steps.


(** * Properties *)

(** ** Lists *)

Lemma map2_ext {A B C : Type} (f g : A -> B -> C) (l : list A) (l' : list B) :
  (forall a b, f a b = g a b) -> map2 f l l' = map2 g l l'.
Proof.
  intros Hfg. revert l'.
  induction l as [|a l IH]; intros [|b l']; simpl; try reflexivity.
  now rewrite Hfg, IH.
Qed.

Lemma map2_map {A B A' B' C : Type} (f : A' -> B' -> C) (g : A -> A')
  (h : B -> B') (l : list A) (l' : list B) :
  map2 f (map g l) (map h l') = map2 (fun a b => f (g a) (h b)) l l'.
Proof.
  revert l'.
  induction l as [|a l IH]; intros [|b l']; simpl; try reflexivity.
  now rewrite IH.
Qed.

Lemma map_repeat {A B : Type} (f : A -> B) (a : A) (n : nat) :
  map f (repeat a n) = repeat (f a) n.
Proof. induction n; simpl; congruence. Qed.

(** ** Tensors *)

Section TensorFacts.

Import Tensor.

Lemma same_shape_true (a b : tensor) :
  same_shape a b = true <-> shape a = shape b.
Proof.
  unfold same_shape.
  destruct (list_eq_dec Nat.eq_dec (shape a) (shape b)); split;
    intros; congruence.
Qed.

Lemma same_shape_refl (a : tensor) : same_shape a a = true.
Proof. now apply same_shape_true. Qed.

Lemma tensor_eta (a : tensor) : mkTensor (shape a) (data a) = a.
Proof. now destruct a. Qed.

End TensorFacts.

(** ** WeightEMA *)

Section WeightEMAFacts.

Import WeightEMA.

(** *** One pair *)

Lemma step_pair_scalar (a w : R) (param ema_param : tensor) :
  rank param = 0%nat ->
  step_pair a w param ema_param = Some (param, ema_param).
Proof.
  unfold step_pair, rank. intros ->. reflexivity.
Qed.

Lemma step_pair_blend (a w : R) (param ema_param : tensor) :
  (0 < rank param)%nat ->
  shape ema_param = shape param ->
  step_pair a w param ema_param =
  Some (mkTensor (shape param) (map (fun x => x * (1 - w)) (data param)),
        mkTensor (shape ema_param)
          (map2 (fun s x => a * s + (1 - a) * x)
                (data ema_param) (data param))).
Proof.
  intros Hrank Hshape. unfold step_pair, rank in *.
  apply Nat.ltb_lt in Hrank. rewrite Hrank.
  unfold add_.
  replace (Tensor.same_shape (mul_scalar ema_param a)
             (mul_scalar param (1 - a))) with true
    by (symmetry; apply same_shape_true; exact Hshape).
  simpl. unfold mul_scalar at 1. simpl.
  rewrite map2_map.
  do 3 f_equal. apply map2_ext. intros; ring.
Qed.

(** *** The loop *)

Lemma step_loop_total (a w : R) (ps es : list tensor) :
  step_ready ps es = true ->
  exists r, step_loop a w ps es = Some r.
Proof.
  revert es.
  induction ps as [|param ps IH]; intros [|ema_param es] Hready; simpl;
    try (eexists; reflexivity).
  simpl in Hready. apply andb_true_iff in Hready as [Hpair Hrest].
  destruct (IH es Hrest) as [r Hr]. rewrite Hr.
  apply orb_true_iff in Hpair as [Hz | Hs].
  - apply Nat.eqb_eq in Hz. rewrite (step_pair_scalar _ _ _ _ Hz).
    simpl. eexists; reflexivity.
  - apply same_shape_true in Hs.
    destruct (Nat.eq_dec (rank param) 0) as [Hz | Hnz].
    + rewrite (step_pair_scalar _ _ _ _ Hz). simpl. eexists; reflexivity.
    + rewrite step_pair_blend by (assumption || lia).
      simpl. eexists; reflexivity.
Qed.

Lemma step_ready_nth (ps es : list tensor) (i : nat) (param ema_param : tensor) :
  step_ready ps es = true ->
  nth_error ps i = Some param ->
  nth_error es i = Some ema_param ->
  rank param = 0%nat \/ shape ema_param = shape param.
Proof.
  revert es i.
  induction ps as [|q ps IH]; intros [|e es] [|i] Hready Hp He;
    simpl in *; try discriminate.
  - injection Hp as ->. injection He as ->.
    apply andb_true_iff in Hready as [Hpair _].
    apply orb_true_iff in Hpair as [Hz | Hs].
    + left. now apply Nat.eqb_eq.
    + right. now apply same_shape_true.
  - apply andb_true_iff in Hready as [_ Hrest]. eauto.
Qed.

Lemma step_loop_nth (a w : R) (ps es : list tensor) (r : list tensor * list tensor)
  (i : nat) (param ema_param : tensor) :
  step_loop a w ps es = Some r ->
  nth_error ps i = Some param ->
  nth_error es i = Some ema_param ->
  exists pe, step_pair a w param ema_param = Some pe
             /\ nth_error (fst r) i = Some (fst pe)
             /\ nth_error (snd r) i = Some (snd pe).
Proof.
  revert es r i.
  induction ps as [|q ps IH]; intros [|e es] r [|i] Hloop Hp He;
    simpl in *; try discriminate.
  - injection Hp as ->. injection He as ->.
    destruct (step_pair a w param ema_param) as [pe|]; [|discriminate].
    simpl in Hloop.
    destruct (step_loop a w ps es) as [rest|]; [|discriminate].
    simpl in Hloop. injection Hloop as <-.
    exists pe. simpl. auto.
  - destruct (step_pair a w q e) as [pe0|]; [|discriminate].
    simpl in Hloop.
    destruct (step_loop a w ps es) as [rest|] eqn:Hrest; [|discriminate].
    simpl in Hloop. injection Hloop as <-.
    simpl. eapply IH; eauto.
Qed.

(** [step] succeeds on matching networks and acts on every visited index as
    [step_pair] does. *)
Lemma step_at_index (self : t) :
  step_ready (params self) (ema_params self) = true ->
  exists self',
    step self = Some self'
    /\ alpha self' = alpha self /\ wd self' = wd self
    /\ forall i param ema_param,
        nth_error (params self) i = Some param ->
        nth_error (ema_params self) i = Some ema_param ->
        exists pe,
          step_pair (alpha self) (wd self) param ema_param = Some pe
          /\ nth_error (params self') i = Some (fst pe)
          /\ nth_error (ema_params self') i = Some (snd pe).
Proof.
  intros Hready.
  destruct (step_loop_total (alpha self) (wd self) _ _ Hready) as [r Hr].
  exists (mk (alpha self) (wd self) (fst r) (snd r)).
  unfold step. rewrite Hr. simpl. repeat split.
  intros i param ema_param Hp He.
  eapply step_loop_nth; eauto.
Qed.

End WeightEMAFacts.

Section WeightEMAClaims.

Import WeightEMA.

Lemma init_loop_total (model ema_model : list tensor) :
  init_ready model ema_model = true ->
  exists ps, init_loop model ema_model = Some ps
             /\ length ps = length model
             /\ forall i param ema_param,
                 nth_error model i = Some param ->
                 nth_error ema_model i = Some ema_param ->
                 nth_error ps i = Some ema_param.
Proof.
  revert ema_model.
  induction model as [|q model IH]; intros [|e ema_model] Hready.
  - exists []. repeat split. intros [|i]; discriminate.
  - exists []. repeat split. intros [|i]; discriminate.
  - exists (q :: model). repeat split. intros [|i]; discriminate.
  - simpl in Hready. apply andb_true_iff in Hready as [Hpair Hrest].
    destruct (IH _ Hrest) as (ps & Hps & Hlen & Hnth).
    exists (e :: ps). simpl. unfold copy_. rewrite Hpair, Hps. simpl.
    apply same_shape_true in Hpair. rewrite Hpair, tensor_eta.
    repeat split; [now rewrite Hlen|].
    intros [|i] param ema_param Hp He; simpl in *.
    + congruence.
    + eauto.
Qed.

Lemma init_hyperparameters (learning_rate a : R) (model ema_model : list tensor)
  (self : t) :
  init learning_rate model ema_model a = Some self ->
  alpha self = a /\ wd self = 0.02 * learning_rate.
Proof.
  unfold init. destruct (init_loop model ema_model); simpl; [|discriminate].
  intros [= <-]. split; reflexivity.
Qed.

(** C1 (as amended).  [WeightEMA.__init__] copies in the direction of
    [param.data.copy_(ema_param.data)]: every visited parameter tensor of the
    trained network is overwritten with the corresponding tensor of the shadow
    network.  Right after construction the two agree at every visited index,
    and it is the shadow network's tensors that are left as they were. *)
Theorem init_copies_shadow_into_trained
  (learning_rate a : R) (model ema_model : list tensor) :
  init_ready model ema_model = true ->
  exists self,
    init learning_rate model ema_model a = Some self
    /\ ema_params self = ema_model
    /\ length (params self) = length model
    /\ forall i param ema_param,
        nth_error model i = Some param ->
        nth_error ema_model i = Some ema_param ->
        nth_error (params self) i = Some ema_param
        /\ nth_error (ema_params self) i = Some ema_param.
Proof.
  intros Hready.
  destruct (init_loop_total _ _ Hready) as (ps & Hps & Hlen & Hnth).
  exists (mk a (0.02 * learning_rate) ps ema_model).
  unfold init. rewrite Hps. simpl. repeat split; eauto.
Qed.

Lemma init_copies_shadow_into_trained_witness :
  init_ready [full [2%nat] 1] [full [2%nat] 7] = true
  /\ exists self,
      init 0.002 [full [2%nat] 1] [full [2%nat] 7] 0.999 = Some self
      /\ nth_error (params self) 0 = Some (full [2%nat] 7)
      /\ nth_error (ema_params self) 0 = Some (full [2%nat] 7).
Proof.
  split; [reflexivity|].
  destruct (init_copies_shadow_into_trained 0.002 0.999
              [full [2%nat] 1] [full [2%nat] 7] eq_refl)
    as (self & Hinit & _ & _ & Hnth).
  exists self. split; [exact Hinit|].
  exact (Hnth 0%nat (full [2%nat] 1) (full [2%nat] 7) eq_refl eq_refl).
Defined.

(** C1 as stated fails: with the trained tensor [[1]] and the shadow tensor
    [[2]], construction leaves the shadow tensor [[2]] and overwrites the
    trained one with it, so the trained parameters are not left unchanged and
    the shadow is not a copy of what the trained network held. *)
Lemma init_changes_trained_counterexample :
  exists self,
    init 0.002 [full [1%nat] 1] [full [1%nat] 2] 0.999 = Some self
    /\ params self <> [full [1%nat] 1]
    /\ ema_params self <> [full [1%nat] 1].
Proof.
  eexists. split; [reflexivity|]. simpl.
  split; intros H; injection H as H; lra.
Qed.

(** C2.  Let the updater be constructed with decay rate [a] under the
    learning rate [learning_rate], and let [self] be that updater at a later
    time (its tensors may have changed, its [alpha] and [wd] have not).  For
    a pair of rank above 0, [step] replaces the shadow tensor by
    [a * shadow + (1 - a) * trained], computed from the trained tensor as it
    was, and multiplies the trained tensor by [1 - wd] with
    [wd = 0.02 * learning_rate]. *)
Theorem step_blends_then_decays
  (learning_rate a : R) (model ema_model : list tensor) (created self : t)
  (i : nat) (param ema_param : tensor) :
  init learning_rate model ema_model a = Some created ->
  alpha self = alpha created ->
  wd self = wd created ->
  step_ready (params self) (ema_params self) = true ->
  nth_error (params self) i = Some param ->
  nth_error (ema_params self) i = Some ema_param ->
  (0 < rank param)%nat ->
  exists self',
    step self = Some self'
    /\ nth_error (ema_params self') i =
       Some (mkTensor (shape ema_param)
               (map2 (fun shadow trained => a * shadow + (1 - a) * trained)
                     (data ema_param) (data param)))
    /\ nth_error (params self') i =
       Some (mkTensor (shape param)
               (map (fun trained => trained * (1 - 0.02 * learning_rate))
                    (data param))).
Proof.
  intros Hinit Halpha Hwd Hready Hp He Hrank.
  destruct (init_hyperparameters _ _ _ _ _ Hinit) as [Ha Hw].
  rewrite Ha in Halpha. rewrite Hw in Hwd.
  destruct (step_at_index self Hready) as (self' & Hstep & _ & _ & Hnth).
  exists self'. split; [exact Hstep|].
  destruct (Hnth i param ema_param Hp He) as (pe & Hpair & Hp' & He').
  destruct (step_ready_nth _ _ _ _ _ Hready Hp He) as [Hz | Hshape];
    [lia|].
  rewrite step_pair_blend in Hpair by assumption.
  injection Hpair as <-. simpl in *.
  rewrite Hwd in Hp'. rewrite Halpha in He'. auto.
Qed.

(** The example of the specification, from the theorem: trained and shadow
    both constant 1.0, alpha 0.9, learning rate 0.002. *)
Lemma step_blends_then_decays_witness :
  exists self',
    step (mk 0.9 (0.02 * 0.002) [full [3%nat] 1] [full [3%nat] 1]) = Some self'
    /\ nth_error (ema_params self') 0 = Some (full [3%nat] 1)
    /\ nth_error (params self') 0 = Some (full [3%nat] 0.99996).
Proof.
  destruct (step_blends_then_decays
              0.002 0.9 [full [3%nat] 1] [full [3%nat] 1]
              (mk 0.9 (0.02 * 0.002) [full [3%nat] 1] [full [3%nat] 1])
              (mk 0.9 (0.02 * 0.002) [full [3%nat] 1] [full [3%nat] 1])
              0%nat (full [3%nat] 1) (full [3%nat] 1)
              eq_refl eq_refl eq_refl eq_refl eq_refl eq_refl (le_n 1))
    as (self' & Hstep & He & Hp).
  exists self'. split; [exact Hstep|]. split.
  - rewrite He. unfold full. simpl. repeat f_equal; lra.
  - rewrite Hp. unfold full. simpl. repeat f_equal; lra.
Defined.

(** C9.  A pair whose trained tensor has rank 0 is skipped by [step]: neither
    its shadow tensor nor its trained tensor changes, whereas every pair of
    rank above 0 gets the blend and the decay. *)
Theorem step_skips_scalars
  (self : t) (i : nat) (param ema_param : tensor) :
  step_ready (params self) (ema_params self) = true ->
  nth_error (params self) i = Some param ->
  nth_error (ema_params self) i = Some ema_param ->
  rank param = 0%nat ->
  exists self',
    step self = Some self'
    /\ nth_error (params self') i = Some param
    /\ nth_error (ema_params self') i = Some ema_param
    /\ forall j q e,
        nth_error (params self) j = Some q ->
        nth_error (ema_params self) j = Some e ->
        (0 < rank q)%nat ->
        nth_error (params self') j = Some (mul_scalar q (1 - wd self))
        /\ nth_error (ema_params self') j =
           Some (mkTensor (shape e)
                   (map2 (fun shadow trained =>
                            alpha self * shadow + (1 - alpha self) * trained)
                         (data e) (data q))).
Proof.
  intros Hready Hp He Hrank.
  destruct (step_at_index self Hready) as (self' & Hstep & _ & _ & Hnth).
  exists self'. split; [exact Hstep|].
  destruct (Hnth i param ema_param Hp He) as (pe & Hpair & Hp' & He').
  rewrite step_pair_scalar in Hpair by assumption.
  injection Hpair as <-. simpl in *.
  repeat split; try assumption.
  - destruct (Hnth j q e H H0) as (pe & Hpair & Hq' & _).
    destruct (step_ready_nth _ _ _ _ _ Hready H H0) as [Hz | Hshape];
      [lia|].
    rewrite step_pair_blend in Hpair by assumption.
    injection Hpair as <-. exact Hq'.
  - destruct (Hnth j q e H H0) as (pe & Hpair & _ & He'').
    destruct (step_ready_nth _ _ _ _ _ Hready H H0) as [Hz | Hshape];
      [lia|].
    rewrite step_pair_blend in Hpair by assumption.
    injection Hpair as <-. exact He''.
Qed.

Lemma step_skips_scalars_witness :
  exists self',
    step (mk 0.9 0.00004 [full [] 3; full [2%nat] 1] [full [] 5; full [2%nat] 2])
    = Some self'
    /\ nth_error (params self') 0 = Some (full [] 3)
    /\ nth_error (ema_params self') 0 = Some (full [] 5).
Proof.
  destruct (step_skips_scalars
              (mk 0.9 0.00004 [full [] 3; full [2%nat] 1] [full [] 5; full [2%nat] 2])
              0%nat (full [] 3) (full [] 5)
              eq_refl eq_refl eq_refl eq_refl)
    as (self' & Hstep & Hp & He & _).
  exists self'. auto.
Defined.

End WeightEMAClaims.

(** ** Sums *)

Lemma sum_upto_ext (n : nat) (f g : nat -> R) :
  (forall i, (i < n)%nat -> f i = g i) -> sum_upto n f = sum_upto n g.
Proof.
  induction n as [|n IH]; intros Hfg; simpl; [reflexivity|].
  rewrite IH, Hfg by (intros; try apply Hfg; lia). reflexivity.
Qed.

Lemma sum_upto_shift (n : nat) (f : nat -> R) :
  sum_upto (S n) f = f 0%nat + sum_upto n (fun i => f (S i)).
Proof.
  induction n as [|n IH]; simpl in *; [ring|].
  rewrite IH. ring.
Qed.

Lemma Rsum_nth (v : list R) :
  Rsum v = sum_upto (length v) (fun i => nth i v 0).
Proof.
  induction v as [|x v IH]; [reflexivity|].
  cbn [length]. rewrite sum_upto_shift. simpl. now rewrite IH.
Qed.

Lemma Rsum_app (v v' : list R) : Rsum (v ++ v') = Rsum v + Rsum v'.
Proof.
  induction v as [|x v IH]; simpl; [ring|]. rewrite IH. ring.
Qed.

Lemma Rsum_concat (m : list (list R)) : Rsum (concat m) = Rsum (map Rsum m).
Proof.
  induction m as [|row m IH]; simpl; [reflexivity|].
  now rewrite Rsum_app, IH.
Qed.

Lemma Rsum_scale (v : list R) (a : R) :
  Rsum (map (fun x => x / a) v) = Rsum v / a.
Proof.
  induction v as [|x v IH]; simpl; [unfold Rdiv; ring|].
  rewrite IH. unfold Rdiv. ring.
Qed.

Lemma Rsum_map2_plus (v v' : list R) :
  length v = length v' ->
  Rsum (map2 Rplus v v') = Rsum v + Rsum v'.
Proof.
  revert v'.
  induction v as [|x v IH]; intros [|y v'] Hlen; simpl in *;
    try discriminate; [ring|].
  rewrite IH by lia. ring.
Qed.

Lemma Rsum_pos (v : list R) :
  v <> [] -> Forall (fun x => 0 < x) v -> 0 < Rsum v.
Proof.
  intros Hne Hpos.
  induction Hpos as [|x v Hx Hv IH]; [congruence|].
  simpl. destruct v as [|y v]; simpl in *; [lra|].
  assert (0 < y + Rsum v) by (apply IH; discriminate). lra.
Qed.

Lemma map2_length {A B C : Type} (f : A -> B -> C) (l : list A) (l' : list B) :
  length l = length l' -> length (map2 f l l') = length l.
Proof.
  revert l'.
  induction l as [|a l IH]; intros [|b l'] Hlen; simpl in *;
    try discriminate; [reflexivity|].
  now rewrite IH by lia.
Qed.

Lemma nth_map2 {A B C : Type} (f : A -> B -> C) (l : list A) (l' : list B)
  (i : nat) (da : A) (db : B) (dc : C) :
  (i < length l)%nat -> (i < length l')%nat ->
  nth i (map2 f l l') dc = f (nth i l da) (nth i l' db).
Proof.
  revert l' i.
  induction l as [|a l IH]; intros [|b l'] [|i] Hi Hi'; simpl in *;
    try lia; [reflexivity|].
  apply IH; lia.
Qed.

Lemma nth_map_in {A B : Type} (f : A -> B) (l : list A) (i : nat)
  (da : A) (db : B) :
  (i < length l)%nat -> nth i (map f l) db = f (nth i l da).
Proof.
  intros Hi. rewrite (nth_indep _ db (f da)) by now rewrite length_map.
  apply map_nth.
Qed.

(** ** Batches *)

Section MatrixFacts.

Import Matrix.

Lemma dims_row (n c : nat) (m : matrix) (i : nat) :
  dims n c m -> (i < n)%nat -> length (nth i m []) = c.
Proof.
  intros [Hn Hrows] Hi. rewrite Forall_forall in Hrows.
  apply Hrows, nth_In. lia.
Qed.

Lemma dims_lengths (n c : nat) (m : matrix) :
  dims n c m -> map (@length R) m = repeat c n.
Proof.
  intros [<- Hrows].
  induction Hrows as [|row m Hrow Hm IH]; simpl; congruence.
Qed.

Lemma dims_same_shape (n c : nat) (a b : matrix) :
  dims n c a -> dims n c b -> same_shape a b = true.
Proof.
  intros Ha Hb. unfold same_shape.
  rewrite (dims_lengths _ _ _ Ha), (dims_lengths _ _ _ Hb).
  now destruct (list_eq_dec Nat.eq_dec (repeat c n) (repeat c n)).
Qed.

Lemma dims_map (n c : nat) (g : R -> R) (m : matrix) :
  dims n c m -> dims n c (map (map g) m).
Proof.
  intros [Hn Hrows]. split; [now rewrite length_map|].
  apply Forall_map. eapply Forall_impl; [|exact Hrows].
  intros row Hrow. now rewrite length_map.
Qed.

Lemma dims_softmax (n c : nat) (m : matrix) :
  dims n c m -> dims n c (softmax m).
Proof.
  intros [Hn Hrows]. split; [unfold softmax; now rewrite length_map|].
  apply Forall_map. eapply Forall_impl; [|exact Hrows].
  intros row Hrow. unfold softmax_row. now rewrite length_map.
Qed.

Lemma dims_map2 (n c : nat) (f : R -> R -> R) (a b : matrix) :
  dims n c a -> dims n c b -> dims n c (map2 (map2 f) a b).
Proof.
  intros [Hna Ha] [Hnb Hb]. subst n. revert b Hnb Hb.
  induction Ha as [|ra a Hra Ha IH]; intros [|rb b] Hnb Hb;
    simpl in *; try discriminate.
  - split; [reflexivity|constructor].
  - inversion Hb as [|? ? Hrb Hb']; subst.
    destruct (IH b) as [Hlen Hrows]; [lia|assumption|].
    split; [simpl; now rewrite Hlen|].
    constructor; [|exact Hrows].
    rewrite map2_length; congruence.
Qed.

Lemma entry_map (n c : nat) (g : R -> R) (m : matrix) (i k : nat) :
  dims n c m -> (i < n)%nat -> (k < c)%nat ->
  entry (map (map g) m) i k = g (entry m i k).
Proof.
  intros Hm Hi Hk. unfold entry.
  pose proof (dims_row _ _ _ i Hm Hi) as Hrow. destruct Hm as [Hn _].
  rewrite (nth_map_in (map g) m i [] []) by lia.
  apply nth_map_in. lia.
Qed.

Lemma entry_map2 (n c : nat) (f : R -> R -> R) (a b : matrix) (i k : nat) :
  dims n c a -> dims n c b -> (i < n)%nat -> (k < c)%nat ->
  entry (map2 (map2 f) a b) i k = f (entry a i k) (entry b i k).
Proof.
  intros Ha Hb Hi Hk. unfold entry.
  pose proof (dims_row _ _ _ i Ha Hi) as Hra.
  pose proof (dims_row _ _ _ i Hb Hi) as Hrb.
  destruct Ha as [Hna _], Hb as [Hnb _].
  rewrite (nth_map2 (map2 f) a b i [] [] []) by lia.
  apply nth_map2; lia.
Qed.

Lemma Rsum_rows (n c : nat) (m : matrix) :
  dims n c m ->
  Rsum (map Rsum m) = sum_upto n (fun i => sum_upto c (fun k => entry m i k)).
Proof.
  intros Hm. rewrite Rsum_nth, length_map.
  pose proof Hm as [Hn _]. rewrite Hn.
  apply sum_upto_ext. intros i Hi.
  rewrite (nth_map_in Rsum m i [] 0) by lia.
  rewrite Rsum_nth, (dims_row n c m i) by assumption.
  reflexivity.
Qed.

Lemma length_concat_dims (n c : nat) (m : matrix) :
  dims n c m -> length (concat m) = (n * c)%nat.
Proof.
  intros [<- Hrows].
  induction Hrows as [|row m Hrow Hm IH]; simpl; [reflexivity|].
  rewrite length_app, IH, Hrow. reflexivity.
Qed.

Lemma log_softmax_map (m : matrix) : log_softmax m = map (map ln) (softmax m).
Proof. unfold log_softmax, softmax. now rewrite map_map. Qed.

End MatrixFacts.

(** ** SemiLoss *)

Section SemiLossClaims.

Import SemiLoss.

Lemma np_clip_clamp01 (x : R) : np_clip x 0 1 = clamp01 x.
Proof.
  unfold np_clip, clamp01, Rmin, Rmax.
  destruct (Rlt_dec x 0), (Rlt_dec 1 x), (Rle_dec x 0);
    destruct (Rle_dec _ 1); lra.
Qed.

Lemma call_shapes (self : t) (outputs_x targets_x outputs_u targets_u : matrix)
  (epoch : R) :
  Matrix.same_shape outputs_x targets_x = true ->
  Matrix.same_shape outputs_u targets_u = true ->
  call self outputs_x targets_x outputs_u targets_u epoch =
  Some (- mean1 (sum_dim1 (map2 (map2 Rmult) (log_softmax outputs_x) targets_x)),
        mean (square (map2 (map2 Rminus) (softmax outputs_u) targets_u)),
        lambda_u self * linear_rampup epoch (epochs self)).
Proof.
  intros Hx Hu. unfold call, mul, sub, ewise.
  assert (Hx' : Matrix.same_shape (log_softmax outputs_x) targets_x = true).
  { unfold Matrix.same_shape in *. unfold log_softmax.
    rewrite map_map.
    erewrite map_ext; [exact Hx|].
    intros row. simpl. unfold softmax_row. now rewrite !length_map. }
  assert (Hu' : Matrix.same_shape (softmax outputs_u) targets_u = true).
  { unfold Matrix.same_shape in *. unfold softmax.
    rewrite map_map.
    erewrite map_ext; [exact Hu|].
    intros row. simpl. unfold softmax_row. now rewrite !length_map. }
  rewrite Hx', Hu'. reflexivity.
Qed.

(** C3.  On a labeled batch of [n] samples and an unlabeled batch of [m]
    samples over [c] classes, [SemiLoss.__call__] returns as labeled loss the
    negative mean over the samples of the sum over the classes of
    [target * log_softmax(logits)], and as unlabeled loss the mean of the
    squared differences between [softmax(logits)] and the soft targets. *)
Theorem call_losses
  (self : t) (n m c : nat)
  (outputs_x targets_x outputs_u targets_u : matrix) (epoch : R) :
  dims n c outputs_x -> dims n c targets_x ->
  dims m c outputs_u -> dims m c targets_u ->
  exists weight,
    call self outputs_x targets_x outputs_u targets_u epoch =
    Some (spec_labeled_loss n c outputs_x targets_x,
          spec_unlabeled_loss m c outputs_u targets_u,
          weight).
Proof.
  intros Hox Htx Hou Htu. eexists.
  rewrite call_shapes by (eapply dims_same_shape; eassumption).
  do 3 f_equal.
  - (* Lx *)
    unfold spec_labeled_loss, mean1, sum_dim1. rewrite length_map.
    pose proof (dims_softmax _ _ _ Hox) as Hsx.
    assert (Hlx : dims n c (log_softmax outputs_x))
      by (rewrite log_softmax_map; now apply dims_map).
    pose proof (dims_map2 _ _ Rmult _ _ Hlx Htx) as Hprod.
    rewrite (Rsum_rows _ _ _ Hprod).
    destruct Hprod as [-> _].
    do 2 f_equal. apply sum_upto_ext. intros i Hi.
    apply sum_upto_ext. intros k Hk.
    rewrite (entry_map2 n c) by assumption.
    rewrite log_softmax_map, (entry_map n c) by assumption.
    ring.
  - (* Lu *)
    unfold spec_unlabeled_loss, mean, mean1, square.
    pose proof (dims_softmax _ _ _ Hou) as Hsu.
    pose proof (dims_map2 _ _ Rminus _ _ Hsu Htu) as Hdiff.
    pose proof (dims_map _ _ (fun x => x ^ 2) _ Hdiff) as Hsq.
    rewrite (length_concat_dims _ _ _ Hsq), Rsum_concat.
    rewrite (Rsum_rows _ _ _ Hsq).
    f_equal. apply sum_upto_ext. intros i Hi.
    apply sum_upto_ext. intros k Hk.
    rewrite (entry_map m c), (entry_map2 m c) by assumption.
    reflexivity.
Qed.

Lemma call_losses_witness :
  exists weight,
    call (mk 75 1000) [[0; 0]] [[1; 0]] [[0; 0]; [1; 1]] [[1; 0]; [0; 1]] 500 =
    Some (spec_labeled_loss 1 2 [[0; 0]] [[1; 0]],
          spec_unlabeled_loss 2 2 [[0; 0]; [1; 1]] [[1; 0]; [0; 1]],
          weight).
Proof.
  apply (call_losses (mk 75 1000) 1 2 2);
    (split; [reflexivity | repeat constructor]).
Defined.

(** C4.  For a positive horizon [epochs], the weight that [SemiLoss.__call__]
    returns is [lambda_u] times the progress fraction [epoch / epochs] clamped
    to the unit interval: 0 at progress 0, [lambda_u] once the fraction is at
    least 1, and [lambda_u] times the fraction in between. *)
Theorem call_weight_ramp
  (self : t) (outputs_x targets_x outputs_u targets_u : matrix) (epoch : R) :
  0 < epochs self ->
  Matrix.same_shape outputs_x targets_x = true ->
  Matrix.same_shape outputs_u targets_u = true ->
  exists Lx Lu weight,
    call self outputs_x targets_x outputs_u targets_u epoch
    = Some (Lx, Lu, weight)
    /\ weight = lambda_u self * clamp01 (epoch / epochs self)
    /\ (epoch / epochs self = 0 -> weight = 0)
    /\ (1 <= epoch / epochs self -> weight = lambda_u self)
    /\ (0 <= epoch / epochs self <= 1 ->
        weight = lambda_u self * (epoch / epochs self)).
Proof.
  intros Hpos Hx Hu. do 3 eexists.
  split; [apply call_shapes; assumption|].
  unfold linear_rampup.
  destruct (Req_dec_T (epochs self) 0) as [Hz | _]; [lra|].
  rewrite np_clip_clamp01. split; [reflexivity|].
  unfold clamp01.
  generalize (epoch / epochs self) (lambda_u self). intros x u.
  destruct (Rlt_dec x 0), (Rlt_dec 1 x); repeat split; intros;
    try (exfalso; lra);
    try (replace x with 0 by lra; ring);
    try (replace x with 1 by lra; ring);
    try ring.
Qed.

(** The example of the specification: [lambda_u = 75], horizon 1000, progress
    one half. *)
Lemma call_weight_ramp_witness :
  exists Lx Lu weight,
    call (mk 75 1000) [[0; 0]] [[1; 0]] [[0; 0]] [[0.5; 0.5]] 500
    = Some (Lx, Lu, weight)
    /\ weight = 37.5.
Proof.
  assert (Hpos : 0 < epochs (mk 75 1000)) by (simpl; lra).
  destruct (call_weight_ramp (mk 75 1000)
              [[0; 0]] [[1; 0]] [[0; 0]] [[0.5; 0.5]] 500
              Hpos eq_refl eq_refl)
    as (Lx & Lu & weight & Hcall & _ & _ & _ & Hlin).
  exists Lx, Lu, weight. split; [exact Hcall|].
  simpl in Hlin. rewrite Hlin; lra.
Defined.

(** C10.  With a horizon of 0, [linear_rampup] is 1.0 whatever the progress,
    and the weight that [SemiLoss.__call__] returns is the whole of
    [lambda_u]; no division takes place. *)
Theorem call_weight_zero_horizon
  (self : t) (outputs_x targets_x outputs_u targets_u : matrix) (epoch : R) :
  epochs self = 0 ->
  Matrix.same_shape outputs_x targets_x = true ->
  Matrix.same_shape outputs_u targets_u = true ->
  linear_rampup epoch (epochs self) = 1
  /\ exists Lx Lu,
      call self outputs_x targets_x outputs_u targets_u epoch
      = Some (Lx, Lu, lambda_u self).
Proof.
  intros Hz Hx Hu.
  assert (Hramp : linear_rampup epoch (epochs self) = 1).
  { unfold linear_rampup.
    destruct (Req_dec_T (epochs self) 0); [reflexivity|contradiction]. }
  split; [exact Hramp|].
  do 2 eexists. rewrite call_shapes by assumption.
  rewrite Hramp, Rmult_1_r. reflexivity.
Qed.

Lemma call_weight_zero_horizon_witness :
  linear_rampup 3 (epochs (mk 75 0)) = 1
  /\ exists Lx Lu,
      call (mk 75 0) [[0; 0]] [[1; 0]] [[0; 0]] [[0.5; 0.5]] 3
      = Some (Lx, Lu, 75).
Proof.
  exact (call_weight_zero_horizon (mk 75 0)
           [[0; 0]] [[1; 0]] [[0; 0]] [[0.5; 0.5]] 3
           eq_refl eq_refl eq_refl).
Defined.

End SemiLossClaims.

(** ** Label guessing and the mixup coefficient *)

Section RoutineClaims.

Import Routine.

Lemma Forall_map2 {A B C : Type} (P : A -> Prop) (Q : B -> Prop)
  (S : C -> Prop) (f : A -> B -> C) (l : list A) (l' : list B) :
  (forall a b, P a -> Q b -> S (f a b)) ->
  Forall P l -> Forall Q l' -> Forall S (map2 f l l').
Proof.
  intros Hf Hl. revert l'.
  induction Hl as [|a l Ha Hl IH]; intros l' Hl'; [constructor|].
  destruct Hl' as [|b l' Hb Hl']; simpl; constructor; auto.
Qed.

(** *** softmax *)

Lemma exp_sum_pos (x : list R) : x <> [] -> 0 < Rsum (map exp x).
Proof.
  intros Hne. apply Rsum_pos.
  - destruct x; [congruence|discriminate].
  - apply Forall_map, Forall_forall. intros v _. apply exp_pos.
Qed.

Lemma softmax_row_pos (x : list R) : Forall (fun v => 0 < v) (softmax_row x).
Proof.
  destruct x as [|v0 x]; [constructor|].
  unfold softmax_row. apply Forall_map, Forall_forall. intros v _.
  apply Rdiv_lt_0_compat; [apply exp_pos|].
  apply exp_sum_pos. discriminate.
Qed.

Lemma softmax_row_sum (x : list R) : x <> [] -> Rsum (softmax_row x) = 1.
Proof.
  intros Hne. unfold softmax_row.
  rewrite <- (map_map exp (fun y => y / Rsum (map exp x))), Rsum_scale.
  pose proof (exp_sum_pos x Hne). field. lra.
Qed.

Lemma softmax_row_length (x : list R) : length (softmax_row x) = length x.
Proof. unfold softmax_row. now rewrite length_map. Qed.

Lemma softmax_lengths (m : matrix) :
  map (@length R) (softmax m) = map (@length R) m.
Proof.
  unfold softmax. rewrite map_map. apply map_ext.
  intros row. apply softmax_row_length.
Qed.

(** *** The averaged distribution [p] *)

Lemma average_unit_row (a b : list R) :
  length a = length b ->
  unit_row (map (fun x => x / 2) (map2 Rplus (softmax_row a) (softmax_row b))).
Proof.
  intros Hlen. split.
  - destruct a as [|va a]; [left; reflexivity|right].
    destruct b as [|vb b]; [discriminate|].
    rewrite Rsum_scale, Rsum_map2_plus
      by (rewrite !softmax_row_length; exact Hlen).
    rewrite !softmax_row_sum by discriminate. lra.
  - apply Forall_map.
    eapply Forall_map2; [| apply softmax_row_pos | apply softmax_row_pos].
    intros x y Hx Hy. simpl in *. lra.
Qed.

Lemma same_shape_lengths (a b : matrix) :
  Matrix.same_shape a b = true -> map (@length R) a = map (@length R) b.
Proof.
  unfold Matrix.same_shape.
  destruct (list_eq_dec Nat.eq_dec _ _); [trivial|discriminate].
Qed.

Lemma average_rows (a b : matrix) :
  map (@length R) a = map (@length R) b ->
  Forall unit_row (div_scalar (map2 (map2 Rplus) (softmax a) (softmax b)) 2).
Proof.
  revert b.
  induction a as [|ra a IH]; intros [|rb b] Hlen; simpl in *;
    try discriminate; [constructor|].
  injection Hlen as Hrow Hrest.
  constructor; [now apply average_unit_row | now apply IH].
Qed.

Lemma p_value (outputs_u1 outputs_u2 pm : matrix) :
  p outputs_u1 outputs_u2 = Some pm ->
  pm = div_scalar
         (map2 (map2 Rplus) (softmax outputs_u1) (softmax outputs_u2)) 2
  /\ Forall unit_row pm.
Proof.
  unfold p, add, ewise.
  destruct (Matrix.same_shape (softmax outputs_u1) (softmax outputs_u2))
    eqn:Hshape; simpl; [|discriminate].
  intros [= <-]. split; [reflexivity|].
  apply average_rows.
  apply same_shape_lengths in Hshape.
  now rewrite !softmax_lengths in Hshape.
Qed.

Lemma p_dims (n c : nat) (outputs_u1 outputs_u2 : matrix) :
  dims n c outputs_u1 -> dims n c outputs_u2 ->
  exists pm, p outputs_u1 outputs_u2 = Some pm /\ dims n c pm.
Proof.
  intros H1 H2. unfold p, add, ewise.
  rewrite (dims_same_shape n c) by (apply dims_softmax; assumption).
  simpl. eexists. split; [reflexivity|].
  apply dims_map, dims_map2; apply dims_softmax; assumption.
Qed.

(** *** Sharpening and renormalisation *)

Lemma pow_row_pos (a : R) (row : list R) :
  Forall (fun x => 0 < x) (map (fun x => Rpower x a) row).
Proof.
  apply Forall_map, Forall_forall. intros x _.
  unfold Rpower. apply exp_pos.
Qed.

Lemma normalised_row (row : list R) :
  row <> [] -> Forall (fun x => 0 < x) row ->
  Rsum (map (fun x => x / Rsum row) row) = 1
  /\ Forall (fun x => 0 <= x) (map (fun x => x / Rsum row) row).
Proof.
  intros Hne Hpos. pose proof (Rsum_pos row Hne Hpos) as Hsum. split.
  - rewrite Rsum_scale. field. lra.
  - apply Forall_map. eapply Forall_impl; [|exact Hpos].
    intros x Hx. simpl. apply Rlt_le, Rdiv_lt_0_compat; assumption.
Qed.

Lemma sharpen_unit_row (row : list R) :
  unit_row row ->
  let pt := map (fun x => Rpower x (1 / 1)) row in
  map (fun x => x / Rsum pt) pt = row.
Proof.
  intros [Hsum Hpos] pt.
  assert (Hpt : pt = row).
  { subst pt. rewrite <- (map_id row) at 2.
    apply map_ext_in. intros x Hx.
    rewrite Forall_forall in Hpos.
    replace (1 / 1) with 1 by field. apply Rpower_1, Hpos, Hx. }
  rewrite Hpt.
  destruct Hsum as [-> | ->]; [reflexivity|].
  rewrite <- (map_id row) at 2. apply map_ext. intros x. field.
Qed.

Lemma sharpen_identity (pm : matrix) :
  Forall unit_row pm -> div_row_sums (pow_scalar pm (1 / 1)) = pm.
Proof.
  intros Hrows. unfold div_row_sums, pow_scalar. rewrite map_map.
  rewrite <- (map_id pm) at 2.
  apply map_ext_in. intros row Hrow.
  rewrite Forall_forall in Hrows. apply sharpen_unit_row, Hrows, Hrow.
Qed.

(** C5.  For a temperature [T > 0] and the logits of the two views of a batch
    of [n] samples over [c >= 1] classes, the guessed labels [targets_u] are
    computed, and each of their rows has non-negative entries that add up
    to 1. *)
Theorem targets_u_rows_are_distributions
  (T : R) (n c : nat) (outputs_u1 outputs_u2 : matrix) :
  0 < T -> (0 < c)%nat ->
  dims n c outputs_u1 -> dims n c outputs_u2 ->
  exists tu,
    targets_u T outputs_u1 outputs_u2 = Some tu
    /\ dims n c tu
    /\ Forall (fun row => Rsum row = 1 /\ Forall (fun x => 0 <= x) row) tu.
Proof.
  intros HT Hc H1 H2.
  destruct (p_dims n c _ _ H1 H2) as (pm & Hp & [Hn Hrows]).
  exists (div_row_sums (pow_scalar pm (1 / T))).
  unfold targets_u, pt. rewrite Hp. simpl.
  destruct (Req_dec_T T 0) as [Hz | _]; [lra|]. simpl.
  split; [reflexivity|].
  unfold div_row_sums, pow_scalar. rewrite map_map.
  split; [split|].
  - now rewrite length_map.
  - apply Forall_map. eapply Forall_impl; [|exact Hrows].
    intros row Hrow. simpl. now rewrite !length_map.
  - apply Forall_map. eapply Forall_impl; [|exact Hrows].
    intros row Hrow. simpl.
    apply normalised_row; [|apply pow_row_pos].
    destruct row; [simpl in Hrow; lia|discriminate].
Qed.

Lemma targets_u_rows_are_distributions_witness :
  exists tu,
    targets_u 0.5 [[0; 1]; [2; 2]] [[1; 0]; [0; 3]] = Some tu
    /\ dims 2 2 tu
    /\ Forall (fun row => Rsum row = 1 /\ Forall (fun x => 0 <= x) row) tu.
Proof.
  apply (targets_u_rows_are_distributions 0.5 2 2);
    [lra | lia | split; [reflexivity | repeat constructor] ..].
Defined.

(** C6.  At temperature 1 the guessed labels are the averaged distribution [p]
    itself, entry by entry the mean of the two softmax outputs: raising to
    the power [1/T] and dividing each row by its sum changes nothing. *)
Theorem targets_u_at_T1_is_average
  (n c : nat) (outputs_u1 outputs_u2 : matrix) :
  dims n c outputs_u1 -> dims n c outputs_u2 ->
  targets_u 1 outputs_u1 outputs_u2 = p outputs_u1 outputs_u2
  /\ exists tu,
      targets_u 1 outputs_u1 outputs_u2 = Some tu
      /\ forall i k, (i < n)%nat -> (k < c)%nat ->
          entry tu i k =
          (entry (softmax outputs_u1) i k + entry (softmax outputs_u2) i k)
          / 2.
Proof.
  intros H1 H2.
  destruct (p_dims n c _ _ H1 H2) as (pm & Hp & Hdims).
  destruct (p_value _ _ _ Hp) as [Hpm Hrows].
  assert (HT : targets_u 1 outputs_u1 outputs_u2 = Some pm).
  { unfold targets_u, pt. rewrite Hp. simpl.
    destruct (Req_dec_T 1 0) as [Hz | _]; [lra|]. simpl.
    now rewrite sharpen_identity. }
  split; [now rewrite HT, Hp|].
  exists pm. split; [exact HT|].
  intros i k Hi Hk. rewrite Hpm. unfold div_scalar.
  rewrite (entry_map n c)
    by (try apply dims_map2; try apply dims_softmax; assumption).
  rewrite (entry_map2 n c) by (try apply dims_softmax; assumption).
  reflexivity.
Qed.

Lemma targets_u_at_T1_is_average_witness :
  targets_u 1 [[0; 1]; [2; 2]] [[1; 0]; [0; 3]]
  = p [[0; 1]; [2; 2]] [[1; 0]; [0; 3]].
Proof.
  apply (targets_u_at_T1_is_average 2 2);
    (split; [reflexivity | repeat constructor]).
Defined.

(** C7.  For a draw [l] in the unit interval, the coefficient the mixup uses,
    [max(l, 1 - l)], lies between one half and one. *)
Theorem mixing_coefficient_range (draw : R) :
  0 <= draw <= 1 -> 0.5 <= l draw <= 1.
Proof.
  intros [Hlo Hhi]. unfold l, Rmax.
  destruct (Rle_dec draw (1 - draw)); lra.
Qed.

Lemma mixing_coefficient_range_witness :
  0 <= 0.25 <= 1 /\ 0.5 <= l 0.25 <= 1 /\ l 0.25 = 0.75.
Proof.
  assert (H : 0 <= 0.25 <= 1) by lra.
  split; [exact H|]. split; [exact (mixing_coefficient_range 0.25 H)|].
  unfold l, Rmax. destruct (Rle_dec 0.25 (1 - 0.25)); lra.
Defined.

End RoutineClaims.

(** ** interleave *)

Section InterleaveClaims.

Import Interleave.

Context {A : Type}.

Lemma nth_map_seq {B : Type} (f : nat -> B) (n i : nat) (d : B) :
  (i < n)%nat -> nth i (map f (seq 0 n)) d = f i.
Proof.
  intros Hi. rewrite (nth_map_in f (seq 0 n) i 0%nat d)
    by now rewrite length_seq.
  now rewrite seq_nth.
Qed.

Lemma map_nth_all {B : Type} (l : list B) (d : B) :
  map (fun i => nth i l d) (seq 0 (length l)) = l.
Proof.
  apply (nth_ext _ _ d d).
  - now rewrite length_map, length_seq.
  - intros i Hi. rewrite length_map, length_seq in Hi.
    exact (nth_map_seq (fun k => nth k l d) _ _ _ Hi).
Qed.

(** *** Cutting a chunk into slices and joining them again *)

Lemma cut_length (ws : list nat) (v : list A) :
  length (cut ws v) = length ws.
Proof.
  revert v. induction ws as [|w ws IH]; intros v; simpl; congruence.
Qed.

Lemma concat_cut (ws : list nat) (v : list A) :
  (length v <= list_sum ws)%nat -> concat (cut ws v) = v.
Proof.
  revert v. induction ws as [|w ws IH]; intros v Hlen; simpl in *.
  - destruct v; [reflexivity|simpl in Hlen; lia].
  - rewrite IH by (rewrite length_skipn; lia).
    apply firstn_skipn.
Qed.

Lemma cut_slice_length (ws : list nat) (v : list A) (s : nat) :
  (list_sum ws <= length v)%nat -> (s < length ws)%nat ->
  length (nth s (cut ws v) []) = nth s ws 0%nat.
Proof.
  revert v s. induction ws as [|w ws IH]; intros v s Hsum Hs; simpl in *;
    [lia|].
  destruct s as [|s].
  - rewrite length_firstn. lia.
  - apply IH; [rewrite length_skipn|]; lia.
Qed.

Lemma cut_concat (ws : list nat) (ss : list (list A)) :
  Forall2 (fun w s => length s = w) ws ss -> cut ws (concat ss) = ss.
Proof.
  induction 1 as [|w s ws ss Hs Hrest IH]; simpl; [reflexivity|].
  subst w.
  rewrite firstn_app, firstn_all, Nat.sub_diag, firstn_O, app_nil_r.
  rewrite skipn_app, skipn_all, Nat.sub_diag, skipn_O.
  simpl. now rewrite IH.
Qed.

Lemma slices_by_index (ws : list nat) (f : nat -> list A) (start : nat) :
  (forall s, (s < length ws)%nat ->
             length (f (start + s)%nat) = nth s ws 0%nat) ->
  Forall2 (fun w x => length x = w) ws (map f (seq start (length ws))).
Proof.
  revert start. induction ws as [|w ws IH]; intros start Hf; simpl.
  - constructor.
  - constructor.
    + specialize (Hf 0%nat). rewrite Nat.add_0_r in Hf.
      apply Hf. simpl. lia.
    + apply IH. intros s Hs.
      specialize (Hf (S s)). simpl in Hf.
      rewrite Nat.add_succ_r in Hf. apply Hf. lia.
Qed.

(** *** The exchange of slices *)

Lemma donor_lt (n j s : nat) :
  (j < n)%nat -> (s < n)%nat -> (donor j s < n)%nat.
Proof.
  intros Hj Hs. unfold donor.
  destruct (j =? 0)%nat; [assumption|].
  destruct (s =? j)%nat; lia.
Qed.

Lemma donor_involutive (j s : nat) : donor (donor j s) s = j.
Proof.
  unfold donor.
  destruct (j =? 0)%nat eqn:Hj.
  - apply Nat.eqb_eq in Hj. subst j.
    destruct (s =? 0)%nat eqn:Hs.
    + now apply Nat.eqb_eq in Hs.
    + now rewrite Nat.eqb_refl.
  - destruct (s =? j)%nat eqn:Hs.
    + apply Nat.eqb_eq in Hs. subst s. simpl. reflexivity.
    + now rewrite Hj, Hs.
Qed.

Variable widths : nat -> nat -> list nat.

Lemma interleave_length (xy : list (list A)) (batch : nat) :
  length (interleave widths xy batch) = length xy.
Proof. unfold interleave. now rewrite length_map, length_seq. Qed.

Lemma interleave_nth (xy : list (list A)) (batch j : nat) :
  (j < length xy)%nat ->
  nth j (interleave widths xy batch) [] =
  concat (map (fun s =>
                 nth s (cut (widths batch (length xy))
                            (nth (donor j s) xy [])) [])
              (seq 0 (length xy))).
Proof.
  intros Hj. unfold interleave. rewrite nth_map_seq by assumption.
  f_equal. apply map_ext_in. intros s Hs. apply in_seq in Hs.
  f_equal.
  apply (nth_map_in _ xy (donor j s) [] []).
  apply donor_lt; lia.
Qed.

(** The slices of an interleaved chunk are the slices that were put in. *)
Lemma cut_interleave_nth (xy : list (list A)) (batch j : nat) :
  length (widths batch (length xy)) = length xy ->
  list_sum (widths batch (length xy)) = batch ->
  Forall (fun chunk => length chunk = batch) xy ->
  (j < length xy)%nat ->
  cut (widths batch (length xy)) (nth j (interleave widths xy batch) []) =
  map (fun s =>
         nth s (cut (widths batch (length xy)) (nth (donor j s) xy [])) [])
      (seq 0 (length xy)).
Proof.
  intros Hlen Hsum Hchunks Hj.
  rewrite interleave_nth by assumption.
  apply cut_concat.
  replace (seq 0 (length xy))
    with (seq 0 (length (widths batch (length xy)))) by now rewrite Hlen.
  apply slices_by_index.
  intros s Hs. rewrite Hlen in Hs. simpl.
  apply cut_slice_length; [|lia].
  rewrite Forall_forall in Hchunks.
  rewrite (Hchunks (nth (donor j s) xy [])); [lia|].
  apply nth_In, donor_lt; lia.
Qed.

(** C8.  When every chunk has [batch] rows and the slice widths add up to
    [batch], one slice per chunk, interleaving twice with the same [batch]
    gives back the list of chunks. *)
Theorem interleave_twice (xy : list (list A)) (batch : nat) :
  length (widths batch (length xy)) = length xy ->
  list_sum (widths batch (length xy)) = batch ->
  Forall (fun chunk => length chunk = batch) xy ->
  interleave widths (interleave widths xy batch) batch = xy.
Proof.
  intros Hlen Hsum Hchunks.
  apply (nth_ext _ _ [] []).
  - now rewrite !interleave_length.
  - intros j Hj. rewrite !interleave_length in Hj.
    rewrite interleave_nth by now rewrite interleave_length.
    rewrite interleave_length.
    rewrite <- (concat_cut (widths batch (length xy)) (nth j xy [])).
    + f_equal.
      rewrite <- (map_nth_all (cut _ (nth j xy [])) []) at 1.
      rewrite cut_length, Hlen.
      apply map_ext_in. intros s Hs. apply in_seq in Hs.
      rewrite cut_interleave_nth
        by (try assumption; apply donor_lt; lia).
      rewrite nth_map_seq by lia.
      now rewrite donor_involutive.
    + rewrite Forall_forall in Hchunks.
      rewrite (Hchunks (nth j xy [])); [lia|].
      now apply nth_In.
Qed.

End InterleaveClaims.

(** Three chunks of four rows, cut into slices of widths 1, 1 and 2. *)
Lemma interleave_twice_witness :
  Interleave.interleave Interleave.even_widths
    [[1; 2; 3; 4]; [5; 6; 7; 8]; [9; 10; 11; 12]]%nat 4
  = [[1; 6; 11; 12]; [5; 2; 7; 8]; [9; 10; 3; 4]]%nat
  /\ Interleave.interleave Interleave.even_widths
       (Interleave.interleave Interleave.even_widths
          [[1; 2; 3; 4]; [5; 6; 7; 8]; [9; 10; 11; 12]]%nat 4) 4
     = [[1; 2; 3; 4]; [5; 6; 7; 8]; [9; 10; 11; 12]]%nat.
Proof.
  split; [reflexivity|].
  apply (interleave_twice Interleave.even_widths);
    [reflexivity | reflexivity | repeat constructor].
Defined.

(** The widths for the batch size and the three streams of the controller's
    defaults. *)
Example even_widths_64_3 : Interleave.even_widths 64 3 = [21; 21; 22]%nat.
Proof. reflexivity. Qed.

(** * Further properties of the code *)

(** ** WeightEMA.step: what it keeps *)

Section WeightEMAInvariants.

Import WeightEMA.

Lemma step_pair_shapes (a w : R) (param ema_param : tensor)
  (pe : tensor * tensor) :
  step_pair a w param ema_param = Some pe ->
  shape (fst pe) = shape param /\ shape (snd pe) = shape ema_param.
Proof.
  unfold step_pair, add_.
  destruct (0 <? length (shape param))%nat.
  - destruct (Tensor.same_shape _ _); simpl; [|discriminate].
    intros [= <-]. split; reflexivity.
  - intros [= <-]. split; reflexivity.
Qed.

Lemma step_loop_shapes (a w : R) (ps es : list tensor)
  (r : list tensor * list tensor) :
  step_loop a w ps es = Some r ->
  map shape (fst r) = map shape ps /\ map shape (snd r) = map shape es.
Proof.
  revert es r.
  induction ps as [|q ps IH]; intros [|e es] r Hloop; simpl in Hloop;
    try (injection Hloop as <-; split; reflexivity).
  destruct (step_pair a w q e) as [pe|] eqn:Hpair; [|discriminate].
  simpl in Hloop.
  destruct (step_loop a w ps es) as [rest|] eqn:Hrest; [|discriminate].
  simpl in Hloop. injection Hloop as <-.
  destruct (step_pair_shapes _ _ _ _ _ Hpair) as [Hq He].
  destruct (IH _ _ Hrest) as [Hps Hes].
  simpl. split; congruence.
Qed.

Lemma step_ready_shapes (ps es ps' es' : list tensor) :
  map shape ps' = map shape ps -> map shape es' = map shape es ->
  step_ready ps' es' = step_ready ps es.
Proof.
  revert es ps' es'.
  induction ps as [|q ps IH]; intros es ps' es' Hps Hes.
  - destruct ps'; [reflexivity|discriminate].
  - destruct ps' as [|q' ps']; [discriminate|].
    injection Hps as Hq Hps.
    destruct es as [|e es], es' as [|e' es']; try discriminate;
      [reflexivity|].
    injection Hes as He Hes. simpl.
    rewrite (IH es ps' es' Hps Hes).
    unfold rank, Tensor.same_shape. now rewrite Hq, He.
Qed.

(** X1.  [step] keeps the structure of both networks: on matching networks
    it succeeds, changes no shape, no list length and neither [alpha] nor
    [wd], and leaves the networks matching, so that the next [step] succeeds
    as well. *)
Theorem step_keeps_shapes (self : t) :
  step_ready (params self) (ema_params self) = true ->
  exists self',
    step self = Some self'
    /\ alpha self' = alpha self /\ wd self' = wd self
    /\ map shape (params self') = map shape (params self)
    /\ map shape (ema_params self') = map shape (ema_params self)
    /\ step_ready (params self') (ema_params self') = true.
Proof.
  intros Hready.
  destruct (step_loop_total (alpha self) (wd self) _ _ Hready) as [r Hr].
  exists (mk (alpha self) (wd self) (fst r) (snd r)).
  unfold step. rewrite Hr. simpl.
  destruct (step_loop_shapes _ _ _ _ _ Hr) as [Hps Hes].
  repeat split; try assumption.
  now rewrite (step_ready_shapes _ _ _ _ Hps Hes).
Qed.

Lemma step_keeps_shapes_witness :
  exists self',
    step (mk 0.9 0.00004 [full [] 3; full [2%nat] 1]
                         [full [] 5; full [2%nat] 2]) = Some self'
    /\ map shape (params self') = [[]; [2%nat]]
    /\ step_ready (params self') (ema_params self') = true.
Proof.
  destruct (step_keeps_shapes
              (mk 0.9 0.00004 [full [] 3; full [2%nat] 1]
                              [full [] 5; full [2%nat] 2]) eq_refl)
    as (self' & Hstep & _ & _ & Hps & _ & Hready).
  exists self'. auto.
Defined.

Lemma step_loop_beyond (a w : R) (ps es : list tensor)
  (r : list tensor * list tensor) (i : nat) :
  step_loop a w ps es = Some r ->
  (length ps <= i \/ length es <= i)%nat ->
  nth_error (fst r) i = nth_error ps i
  /\ nth_error (snd r) i = nth_error es i.
Proof.
  revert es r i.
  induction ps as [|q ps IH]; intros [|e es] r i Hloop Hi; simpl in Hloop;
    try (injection Hloop as <-; split; reflexivity).
  destruct (step_pair a w q e) as [pe|]; [|discriminate]. simpl in Hloop.
  destruct (step_loop a w ps es) as [rest|] eqn:Hrest; [|discriminate].
  simpl in Hloop. injection Hloop as <-.
  destruct i as [|i]; [simpl in Hi; lia|].
  simpl. apply (IH _ _ _ Hrest). simpl in Hi. lia.
Qed.

(** X2.  [zip] stops at the shorter list: a tensor at an index that one of
    the two networks does not have is not touched by [step]. *)
Theorem step_leaves_unpaired (self self' : t) (i : nat) :
  step self = Some self' ->
  (length (params self) <= i \/ length (ema_params self) <= i)%nat ->
  nth_error (params self') i = nth_error (params self) i
  /\ nth_error (ema_params self') i = nth_error (ema_params self) i.
Proof.
  unfold step. intros Hstep Hi.
  destruct (step_loop _ _ _ _) as [r|] eqn:Hr; [|discriminate].
  simpl in Hstep. injection Hstep as <-. simpl.
  eapply step_loop_beyond; eauto.
Qed.

Lemma step_leaves_unpaired_witness :
  exists self',
    step (mk 0.9 0.00004 [full [2%nat] 1; full [2%nat] 4] [full [2%nat] 2])
    = Some self'
    /\ nth_error (params self') 1 = Some (full [2%nat] 4).
Proof.
  eexists. split; [reflexivity|].
  apply (step_leaves_unpaired
           (mk 0.9 0.00004 [full [2%nat] 1; full [2%nat] 4] [full [2%nat] 2])
           _ 1%nat eq_refl).
  right. simpl. lia.
Defined.

Lemma map2_diag {A B : Type} (f : A -> A -> B) (l : list A) :
  map2 f l l = map (fun x => f x x) l.
Proof. induction l as [|x l IH]; simpl; congruence. Qed.

Lemma step_pair_equal (a w : R) (e : tensor) :
  exists q, step_pair a w (mkTensor (shape e) (data e)) e = Some (q, e).
Proof.
  rewrite tensor_eta.
  destruct (Nat.eq_dec (rank e) 0) as [Hz | Hnz].
  - rewrite step_pair_scalar by assumption. eexists; reflexivity.
  - rewrite step_pair_blend by (reflexivity || lia).
    eexists. do 2 f_equal.
    rewrite map2_diag. rewrite <- (tensor_eta e) at 3. f_equal.
    rewrite <- (map_id (data e)) at 2. apply map_ext. intros x. ring.
Qed.

Lemma step_loop_after_init (a w : R) (model ema_model ps : list tensor) :
  init_loop model ema_model = Some ps ->
  exists ps', step_loop a w ps ema_model = Some (ps', ema_model).
Proof.
  revert ema_model ps.
  induction model as [|q model IH]; intros [|e ema_model] ps Hinit;
    simpl in Hinit; try (injection Hinit as <-; eexists; reflexivity).
  unfold copy_ in Hinit.
  destruct (Tensor.same_shape q e) eqn:Hshape; [|discriminate].
  simpl in Hinit.
  destruct (init_loop model ema_model) as [ps0|] eqn:Hrest; [|discriminate].
  simpl in Hinit. injection Hinit as <-.
  apply same_shape_true in Hshape. rewrite Hshape.
  destruct (IH _ _ Hrest) as [ps' Hps'].
  destruct (step_pair_equal a w e) as [q' Hq'].
  simpl. rewrite Hq'. simpl. rewrite Hps'. simpl.
  eexists; reflexivity.
Qed.

(** X3.  The first [step] after construction, with no optimizer update in
    between, succeeds and leaves the shadow network exactly as it was:
    [__init__] has made the trained tensors equal to the shadow ones, and
    the blend of two equal tensors is that tensor. *)
Theorem first_step_keeps_shadow
  (learning_rate a : R) (model ema_model : list tensor) (self : t) :
  init learning_rate model ema_model a = Some self ->
  exists self', step self = Some self' /\ ema_params self' = ema_model.
Proof.
  unfold init. intros Hinit.
  destruct (init_loop model ema_model) as [ps|] eqn:Hps; [|discriminate].
  simpl in Hinit. injection Hinit as <-.
  destruct (step_loop_after_init a (0.02 * learning_rate) _ _ _ Hps)
    as [ps' Hps'].
  unfold step. simpl. rewrite Hps'. simpl.
  eexists. split; reflexivity.
Qed.

Lemma first_step_keeps_shadow_witness :
  exists self',
    step (mk 0.999 (0.02 * 0.002) [full [2%nat] 7; full [] 3]
                                  [full [2%nat] 7; full [] 3]) = Some self'
    /\ ema_params self' = [full [2%nat] 7; full [] 3].
Proof.
  apply (first_step_keeps_shadow 0.002 0.999
           [full [2%nat] 1; full [] 0] [full [2%nat] 7; full [] 3]).
  reflexivity.
Defined.

End WeightEMAInvariants.

Section WeightEMASteps.

Import WeightEMA.

Lemma step_ready_next (self self' : t) :
  step self = Some self' ->
  step_ready (params self) (ema_params self) = true ->
  step_ready (params self') (ema_params self') = true
  /\ alpha self' = alpha self /\ wd self' = wd self.
Proof.
  unfold step. intros Hstep Hready.
  destruct (step_loop _ _ _ _) as [r|] eqn:Hr; [|discriminate].
  simpl in Hstep. injection Hstep as <-. simpl.
  destruct (step_loop_shapes _ _ _ _ _ Hr) as [Hps Hes].
  repeat split. now rewrite (step_ready_shapes _ _ _ _ Hps Hes).
Qed.

Lemma mul_scalar_one (p : tensor) : mul_scalar p 1 = p.
Proof.
  unfold mul_scalar. rewrite <- (tensor_eta p) at 3. f_equal.
  rewrite <- (map_id (data p)) at 2. apply map_ext. intros x. ring.
Qed.

Lemma mul_scalar_twice (p : tensor) (a b : R) :
  mul_scalar (mul_scalar p a) b = mul_scalar p (a * b).
Proof.
  unfold mul_scalar. simpl. f_equal. rewrite map_map.
  apply map_ext. intros x. ring.
Qed.

(** X4.  Weight decay compounds: [n] calls of [step] in a row multiply a
    trained tensor of rank above 0 by [(1 - wd) ^ n]. *)
Theorem steps_decay_power
  (n : nat) (self : t) (i : nat) (param ema_param : tensor) :
  step_ready (params self) (ema_params self) = true ->
  nth_error (params self) i = Some param ->
  nth_error (ema_params self) i = Some ema_param ->
  (0 < rank param)%nat ->
  exists self',
    Steps.steps n self = Some self'
    /\ nth_error (params self') i
       = Some (mul_scalar param ((1 - wd self) ^ n)).
Proof.
  revert self param ema_param.
  induction n as [|n IH]; intros self param ema_param Hready Hp He Hrank.
  - exists self. simpl. now rewrite mul_scalar_one.
  - destruct (step_at_index self Hready) as (self1 & Hstep & _ & _ & Hnth).
    destruct (Hnth i param ema_param Hp He) as (pe & Hpair & Hp1 & He1).
    destruct (step_ready_nth _ _ _ _ _ Hready Hp He) as [Hz | Hshape];
      [lia|].
    rewrite step_pair_blend in Hpair by assumption.
    injection Hpair as <-. simpl in Hp1, He1.
    destruct (step_ready_next _ _ Hstep Hready) as (Hready1 & _ & Hwd).
    destruct (IH self1 _ _ Hready1 Hp1 He1 Hrank) as (self' & Hsteps & Hp').
    exists self'. simpl. rewrite Hstep. simpl. split; [exact Hsteps|].
    rewrite Hp', Hwd. f_equal.
    change (mkTensor (shape param)
              (map (fun x => x * (1 - wd self)) (data param)))
      with (mul_scalar param (1 - wd self)).
    apply mul_scalar_twice.
Qed.

Lemma steps_decay_power_witness :
  exists self',
    Steps.steps 2 (mk 0.5 0.5 [full [2%nat] 8] [full [2%nat] 0]) = Some self'
    /\ nth_error (params self') 0 = Some (full [2%nat] 2).
Proof.
  destruct (steps_decay_power 2 (mk 0.5 0.5 [full [2%nat] 8] [full [2%nat] 0])
              0%nat (full [2%nat] 8) (full [2%nat] 0)
              eq_refl eq_refl eq_refl (le_n 1))
    as (self' & Hsteps & Hp).
  exists self'. split; [exact Hsteps|].
  rewrite Hp. unfold full, mul_scalar. simpl. repeat f_equal; lra.
Defined.

(** X5.  For a decay rate between 0 and 1 the shadow stays in the range of
    what it blends: if the entries of a shadow tensor and of its trained
    tensor all lie in [[lo, hi]], so do the entries of the shadow tensor after
    [step]. *)
Theorem step_shadow_stays_between
  (self : t) (i : nat) (param ema_param : tensor) (lo hi : R) :
  0 <= alpha self <= 1 ->
  step_ready (params self) (ema_params self) = true ->
  nth_error (params self) i = Some param ->
  nth_error (ema_params self) i = Some ema_param ->
  Forall (fun x => lo <= x <= hi) (data param) ->
  Forall (fun x => lo <= x <= hi) (data ema_param) ->
  exists self' ema_param',
    step self = Some self'
    /\ nth_error (ema_params self') i = Some ema_param'
    /\ Forall (fun x => lo <= x <= hi) (data ema_param').
Proof.
  intros Halpha Hready Hp He Hpr Her.
  destruct (step_at_index self Hready) as (self' & Hstep & _ & _ & Hnth).
  destruct (Hnth i param ema_param Hp He) as (pe & Hpair & _ & He').
  exists self', (snd pe). repeat split; try assumption.
  destruct (Nat.eq_dec (rank param) 0) as [Hz | Hnz].
  - rewrite step_pair_scalar in Hpair by assumption.
    injection Hpair as <-. exact Her.
  - destruct (step_ready_nth _ _ _ _ _ Hready Hp He) as [Hz | Hshape];
      [lia|].
    rewrite step_pair_blend in Hpair by (assumption || lia).
    injection Hpair as <-. simpl.
    eapply Forall_map2; [| exact Her | exact Hpr].
    intros s x Hs Hx. simpl in *. nra.
Qed.

Lemma step_shadow_stays_between_witness :
  exists self' ema_param',
    step (mk 0.9 0.00004 [full [2%nat] 1] [full [2%nat] 3]) = Some self'
    /\ nth_error (ema_params self') 0 = Some ema_param'
    /\ Forall (fun x => 1 <= x <= 3) (data ema_param').
Proof.
  apply (step_shadow_stays_between
           (mk 0.9 0.00004 [full [2%nat] 1] [full [2%nat] 3])
           0%nat (full [2%nat] 1) (full [2%nat] 3) 1 3);
    try reflexivity; simpl; try lra; repeat constructor; lra.
Defined.

End WeightEMASteps.

(** ** SemiLoss: range and sign of what it returns *)

Section SemiLossRange.

Import SemiLoss.

Lemma linear_rampup_range (current rampup_length : R) :
  0 <= linear_rampup current rampup_length <= 1.
Proof.
  unfold linear_rampup.
  destruct (Req_dec_T rampup_length 0); [lra|].
  rewrite np_clip_clamp01. unfold clamp01.
  generalize (current / rampup_length). intros x.
  destruct (Rlt_dec x 0), (Rlt_dec 1 x); lra.
Qed.

(** X6.  Whatever the progress and the horizon (zero and negative horizons
    included), the ramp is a number between 0 and 1, so the weight that
    [__call__] returns lies between 0 and [lambda_u] when [lambda_u] is not
    negative. *)
Theorem call_weight_bounded
  (self : t) (outputs_x targets_x outputs_u targets_u : matrix) (epoch : R) :
  0 <= lambda_u self ->
  Matrix.same_shape outputs_x targets_x = true ->
  Matrix.same_shape outputs_u targets_u = true ->
  exists Lx Lu weight,
    call self outputs_x targets_x outputs_u targets_u epoch
    = Some (Lx, Lu, weight)
    /\ 0 <= weight <= lambda_u self.
Proof.
  intros Hlam Hx Hu. do 3 eexists.
  split; [apply call_shapes; assumption|].
  pose proof (linear_rampup_range epoch (epochs self)). nra.
Qed.

Lemma call_weight_bounded_witness :
  exists Lx Lu weight,
    call (mk 75 (-4)) [[0; 0]] [[1; 0]] [[0; 0]] [[0.5; 0.5]] 3
    = Some (Lx, Lu, weight)
    /\ 0 <= weight <= 75.
Proof.
  assert (Hlam : 0 <= lambda_u (mk 75 (-4))) by (simpl; lra).
  exact (call_weight_bounded (mk 75 (-4))
           [[0; 0]] [[1; 0]] [[0; 0]] [[0.5; 0.5]] 3 Hlam eq_refl eq_refl).
Defined.

(** X7.  Over a positive horizon the ramp never goes down as training
    advances. *)
Theorem linear_rampup_monotone (current current' rampup_length : R) :
  0 < rampup_length ->
  current <= current' ->
  linear_rampup current rampup_length <= linear_rampup current' rampup_length.
Proof.
  intros Hpos Hle. unfold linear_rampup.
  destruct (Req_dec_T rampup_length 0); [lra|].
  rewrite !np_clip_clamp01.
  assert (Hdiv : current / rampup_length <= current' / rampup_length).
  { unfold Rdiv. apply Rmult_le_compat_r; [|exact Hle].
    apply Rlt_le, Rinv_0_lt_compat, Hpos. }
  unfold clamp01.
  destruct (Rlt_dec (current / rampup_length) 0),
           (Rlt_dec 1 (current / rampup_length)),
           (Rlt_dec (current' / rampup_length) 0),
           (Rlt_dec 1 (current' / rampup_length)); lra.
Qed.

Lemma linear_rampup_monotone_witness :
  linear_rampup 200 1000 <= linear_rampup 500 1000.
Proof.
  apply linear_rampup_monotone; lra.
Defined.

(** *** Signs of the two losses *)

Lemma Rsum_nonneg (v : list R) : Forall (fun x => 0 <= x) v -> 0 <= Rsum v.
Proof.
  induction 1 as [|x v Hx Hv IH]; simpl; lra.
Qed.

Lemma Rsum_nonpos (v : list R) : Forall (fun x => x <= 0) v -> Rsum v <= 0.
Proof.
  induction 1 as [|x v Hx Hv IH]; simpl; lra.
Qed.

Lemma mean1_nonneg (v : list R) : Forall (fun x => 0 <= x) v -> 0 <= mean1 v.
Proof.
  intros Hv. unfold mean1. destruct v as [|x v].
  - simpl. unfold Rdiv. rewrite Rmult_0_l. lra.
  - apply Rsum_nonneg in Hv.
    apply Rmult_le_pos; [exact Hv|].
    apply Rlt_le, Rinv_0_lt_compat, lt_0_INR. simpl. lia.
Qed.

Lemma Rsum_opp (v : list R) : Rsum (map Ropp v) = - Rsum v.
Proof.
  induction v as [|x v IH]; simpl; [lra|]. rewrite IH. lra.
Qed.

Lemma mean1_nonpos (v : list R) : Forall (fun x => x <= 0) v -> mean1 v <= 0.
Proof.
  intros Hv.
  assert (H : 0 <= mean1 (map Ropp v)).
  { apply mean1_nonneg, Forall_map. eapply Forall_impl; [|exact Hv].
    intros x Hx. simpl. lra. }
  unfold mean1 in *. rewrite length_map, Rsum_opp in H.
  unfold Rdiv in *. lra.
Qed.

Lemma exp_le_sum (x : list R) (v : R) : In v x -> exp v <= Rsum (map exp x).
Proof.
  induction x as [|y x IH]; intros Hin; [contradiction|]. simpl.
  assert (0 <= Rsum (map exp x)).
  { apply Rsum_nonneg, Forall_map, Forall_forall.
    intros z _. apply Rlt_le, exp_pos. }
  destruct Hin as [-> | Hin]; [lra|].
  specialize (IH Hin). pose proof (exp_pos y). lra.
Qed.

Lemma log_softmax_row_nonpos (x : list R) :
  Forall (fun y => y <= 0) (map ln (softmax_row x)).
Proof.
  unfold softmax_row. rewrite map_map. apply Forall_forall.
  intros y Hy. apply in_map_iff in Hy as (v & <- & Hv).
  assert (Hs : 0 < Rsum (map exp x)).
  { apply exp_sum_pos. intros ->. contradiction. }
  assert (Hpos : 0 < exp v / Rsum (map exp x))
    by (apply Rdiv_lt_0_compat; [apply exp_pos|exact Hs]).
  assert (Hle : exp v / Rsum (map exp x) <= 1).
  { apply (Rmult_le_reg_r (Rsum (map exp x))); [exact Hs|].
    unfold Rdiv. rewrite Rmult_assoc, Rinv_l, Rmult_1_r, Rmult_1_l by lra.
    now apply exp_le_sum. }
  destruct Hle as [Hlt | ->]; [|rewrite ln_1; lra].
  rewrite <- ln_1. apply Rlt_le, ln_increasing; assumption.
Qed.



End SemiLossRange.

(** ** SemiLoss: when the unlabeled loss vanishes *)

Section SemiLossZero.

Import SemiLoss.

Lemma sum_upto_nonneg (n : nat) (f : nat -> R) :
  (forall i, (i < n)%nat -> 0 <= f i) -> 0 <= sum_upto n f.
Proof.
  induction n as [|n IH]; intros Hf; simpl; [lra|].
  assert (0 <= sum_upto n f) by (apply IH; intros; apply Hf; lia).
  assert (0 <= f n) by (apply Hf; lia). lra.
Qed.

Lemma sum_upto_zero (n : nat) (f : nat -> R) :
  (forall i, (i < n)%nat -> 0 <= f i) ->
  sum_upto n f = 0 ->
  forall i, (i < n)%nat -> f i = 0.
Proof.
  induction n as [|n IH]; intros Hf Hsum i Hi; [lia|].
  simpl in Hsum.
  assert (H1 : 0 <= sum_upto n f)
    by (apply sum_upto_nonneg; intros; apply Hf; lia).
  assert (H2 : 0 <= f n) by (apply Hf; lia).
  destruct (Nat.eq_dec i n) as [-> | Hne]; [lra|].
  apply IH; [intros; apply Hf; lia | lra | lia].
Qed.

Lemma sum_upto_all_zero (n : nat) (f : nat -> R) :
  (forall i, (i < n)%nat -> f i = 0) -> sum_upto n f = 0.
Proof.
  induction n as [|n IH]; intros Hf; simpl; [reflexivity|].
  rewrite IH, Hf by (intros; try apply Hf; lia). lra.
Qed.

(** The unlabeled loss of [__call__] as a sum over the entries. *)
Lemma Lu_as_sum (m c : nat) (outputs_u targets_u : matrix) :
  dims m c outputs_u -> dims m c targets_u ->
  mean (square (map2 (map2 Rminus) (softmax outputs_u) targets_u)) =
  sum_upto m (fun i =>
    sum_upto c (fun k =>
      (entry (softmax outputs_u) i k - entry targets_u i k) ^ 2))
  / INR (m * c).
Proof.
  intros Hou Htu. unfold mean, mean1, square.
  pose proof (dims_softmax _ _ _ Hou) as Hsu.
  pose proof (dims_map2 _ _ Rminus _ _ Hsu Htu) as Hdiff.
  pose proof (dims_map _ _ (fun x => x ^ 2) _ Hdiff) as Hsq.
  rewrite (length_concat_dims _ _ _ Hsq), Rsum_concat.
  rewrite (Rsum_rows _ _ _ Hsq).
  f_equal. apply sum_upto_ext. intros i Hi.
  apply sum_upto_ext. intros k Hk.
  rewrite (entry_map m c), (entry_map2 m c) by assumption.
  reflexivity.
Qed.

(** X9.  On a batch with at least one sample and one class, the unlabeled
    loss is zero exactly when the softmax of the unlabeled logits equals the
    unlabeled targets entry for entry. *)
Theorem call_unlabeled_loss_zero_iff
  (self : t) (m c : nat)
  (outputs_x targets_x outputs_u targets_u : matrix) (epoch : R) :
  (0 < m)%nat -> (0 < c)%nat ->
  Matrix.same_shape outputs_x targets_x = true ->
  dims m c outputs_u -> dims m c targets_u ->
  exists Lx Lu weight,
    call self outputs_x targets_x outputs_u targets_u epoch
    = Some (Lx, Lu, weight)
    /\ (Lu = 0 <->
        forall i k, (i < m)%nat -> (k < c)%nat ->
          entry (softmax outputs_u) i k = entry targets_u i k).
Proof.
  intros Hm Hc Hx Hou Htu. do 3 eexists.
  split.
  { apply call_shapes; [exact Hx|].
    eapply dims_same_shape; eassumption. }
  rewrite (Lu_as_sum m c) by assumption.
  assert (Hpos : 0 < INR (m * c)) by (apply lt_0_INR; nia).
  set (term := fun i k =>
         (entry (softmax outputs_u) i k - entry targets_u i k) ^ 2).
  assert (Hterm : forall i k, 0 <= term i k)
    by (intros; unfold term; apply pow2_ge_0).
  split.
  - intros Hzero i k Hi Hk.
    assert (Hsum : sum_upto m (fun i => sum_upto c (fun k => term i k)) = 0).
    { apply (Rmult_eq_reg_r (/ INR (m * c)));
        [|apply Rinv_neq_0_compat; lra].
      rewrite Rmult_0_l. exact Hzero. }
    assert (Hrow : sum_upto c (fun k => term i k) = 0).
    { apply (sum_upto_zero m (fun i => sum_upto c (fun k => term i k)));
        [|exact Hsum|exact Hi].
      intros j _. apply sum_upto_nonneg. intros; apply Hterm. }
    assert (Hik : term i k = 0).
    { apply (sum_upto_zero c (fun k => term i k)); auto. }
    unfold term in Hik. simpl in Hik. rewrite Rmult_1_r in Hik.
    apply Rmult_integral in Hik. lra.
  - intros Heq.
    rewrite sum_upto_all_zero; [unfold Rdiv; ring|].
    intros i Hi. apply sum_upto_all_zero. intros k Hk.
    rewrite (Heq i k Hi Hk). ring.
Qed.

Lemma call_unlabeled_loss_zero_iff_witness :
  exists Lx Lu weight,
    call (mk 75 1000) [[0; 1]] [[1; 0]] [[0; 0]] [[0.5; 0.5]] 3
    = Some (Lx, Lu, weight)
    /\ (Lu = 0 <->
        forall i k, (i < 1)%nat -> (k < 2)%nat ->
          entry (softmax [[0; 0]]) i k = entry [[0.5; 0.5]] i k).
Proof.
  apply (call_unlabeled_loss_zero_iff (mk 75 1000) 1 2);
    try lia; try reflexivity;
    (split; [reflexivity | repeat constructor]).
Defined.

End SemiLossZero.

(** ** One-hot labels (lines 49-50 of routine) *)

Section OneHot.

Import Index Train.

(** *** Python indices *)

Lemma wrap_some_iff (size : nat) (i : Z) (k : nat) :
  wrap size i = Some k <->
  (k < size)%nat
  /\ (i = Z.of_nat k \/ i = (Z.of_nat k - Z.of_nat size)%Z).
Proof.
  unfold wrap.
  destruct ((0 <=? i) && (i <? Z.of_nat size))%Z eqn:H1.
  - apply andb_true_iff in H1 as [Ha Hb].
    apply Z.leb_le in Ha. apply Z.ltb_lt in Hb.
    split.
    + intros [= <-]. split; lia.
    + intros [Hk [-> | ->]]; f_equal; lia.
  - destruct ((- Z.of_nat size <=? i) && (i <? 0))%Z eqn:H2.
    + apply andb_true_iff in H2 as [Ha Hb].
      apply Z.leb_le in Ha. apply Z.ltb_lt in Hb.
      split.
      * intros [= <-]. split; lia.
      * intros [Hk [-> | ->]]; f_equal; lia.
    + apply andb_false_iff in H1, H2.
      split; [discriminate|].
      intros [Hk Hi]. exfalso.
      destruct H1 as [H1 | H1], H2 as [H2 | H2];
        try apply Z.leb_gt in H1; try apply Z.ltb_ge in H1;
        try apply Z.leb_gt in H2; try apply Z.ltb_ge in H2; lia.
Qed.

Lemma wrap_none_iff (size : nat) (i : Z) :
  wrap size i = None <-> (i < - Z.of_nat size \/ Z.of_nat size <= i)%Z.
Proof.
  unfold wrap.
  destruct ((0 <=? i) && (i <? Z.of_nat size))%Z eqn:H1.
  - apply andb_true_iff in H1 as [Ha Hb].
    apply Z.leb_le in Ha. apply Z.ltb_lt in Hb.
    split; [discriminate | lia].
  - destruct ((- Z.of_nat size <=? i) && (i <? 0))%Z eqn:H2.
    + apply andb_true_iff in H2 as [Ha Hb].
      apply Z.leb_le in Ha. apply Z.ltb_lt in Hb.
      split; [discriminate | lia].
    + apply andb_false_iff in H1, H2.
      split; [intros _ | reflexivity].
      destruct H1 as [H1 | H1], H2 as [H2 | H2];
        try apply Z.leb_gt in H1; try apply Z.ltb_ge in H1;
        try apply Z.leb_gt in H2; try apply Z.ltb_ge in H2; lia.
Qed.

(** *** Updating one entry *)

Lemma length_update {A : Type} (l : list A) (j : nat) (v : A) :
  length (update l j v) = length l.
Proof.
  revert j. induction l as [|x l IH]; intros [|j]; simpl; auto.
Qed.

Lemma nth_update {A : Type} (l : list A) (i j : nat) (v d : A) :
  (j < length l)%nat ->
  nth i (update l j v) d = if (i =? j)%nat then v else nth i l d.
Proof.
  revert i j. induction l as [|x l IH]; intros i j Hj; simpl in Hj; [lia|].
  destruct j as [|j], i as [|i]; simpl; try reflexivity.
  apply IH. lia.
Qed.

Lemma Forall_update {A : Type} (P : A -> Prop) (l : list A) (j : nat) (v : A) :
  Forall P l -> P v -> Forall P (update l j v).
Proof.
  intros Hl Hv. revert j.
  induction Hl as [|x l Hx Hl IH]; intros [|j]; simpl; auto.
Qed.

Lemma set_entry_some (n c : nat) (m : matrix) (r : nat) (t : Z) (k : nat)
  (v : R) :
  dims n c m -> (r < n)%nat -> wrap c t = Some k ->
  exists m',
    set_entry m r t v = Some m'
    /\ dims n c m'
    /\ forall i j,
        entry m' i j =
        if ((i =? r) && (j =? k))%nat then v else entry m i j.
Proof.
  intros Hm Hr Hk.
  pose proof (dims_row _ _ _ r Hm Hr) as Hrow.
  destruct Hm as [Hn Hrows].
  assert (Hnth : nth_error m r = Some (nth r m []))
    by (apply nth_error_nth'; lia).
  assert (Hkc : (k < c)%nat) by (apply wrap_some_iff in Hk; tauto).
  exists (update m r (update (nth r m []) k v)).
  unfold set_entry. rewrite Hnth, Hrow, Hk. simpl.
  split; [reflexivity|]. split.
  - split; [now rewrite length_update|].
    apply Forall_update; [exact Hrows|].
    now rewrite length_update.
  - intros i j. unfold entry.
    rewrite nth_update by lia.
    destruct (i =? r)%nat eqn:Hi; simpl; [|reflexivity].
    apply Nat.eqb_eq in Hi. subst i.
    rewrite nth_update by lia. reflexivity.
Qed.

Lemma set_entry_none (n c : nat) (m : matrix) (r : nat) (t : Z) (v : R) :
  dims n c m -> (r < n)%nat -> wrap c t = None ->
  set_entry m r t v = None.
Proof.
  intros Hm Hr Hk.
  pose proof (dims_row _ _ _ r Hm Hr) as Hrow.
  destruct Hm as [Hn Hrows].
  unfold set_entry.
  rewrite (nth_error_nth' m [] (n := r)) by lia.
  now rewrite Hrow, Hk.
Qed.

(** *** Writing one entry in each of consecutive rows *)

Lemma index_put_rows (n c : nat) (v : R) (ts : list Z) (s : nat) (m : matrix) :
  dims n c m -> (s + length ts <= n)%nat ->
  Forall (fun t => wrap c t <> None) ts ->
  exists m',
    index_put m (combine (seq s (length ts)) ts) v = Some m'
    /\ dims n c m'
    /\ forall i k,
        entry m' i k =
        if ((s <=? i) && (i <? s + length ts))%nat
        then match wrap c (nth (i - s) ts 0%Z) with
             | Some k' => if (k =? k')%nat then v else entry m i k
             | None => entry m i k
             end
        else entry m i k.
Proof.
  intros Hm Hs Hts. revert s m Hm Hs.
  induction Hts as [|t ts Ht Hts IH]; intros s m Hm Hs.
  - exists m. simpl. repeat split; try apply Hm.
    intros i k.
    destruct ((s <=? i) && (i <? s + 0))%nat eqn:E; [|reflexivity].
    apply andb_true_iff in E as [E1 E2].
    apply Nat.leb_le in E1. apply Nat.ltb_lt in E2. lia.
  - simpl in Hs.
    destruct (wrap c t) as [k0|] eqn:Hk0; [|congruence].
    destruct (set_entry_some n c m s t k0 v Hm ltac:(lia) Hk0)
      as (m1 & Hset & Hm1 & Hentry1).
    destruct (IH (S s) m1 Hm1 ltac:(lia)) as (m' & Hput & Hm' & Hentry).
    exists m'. simpl. rewrite Hset. simpl.
    split; [exact Hput|]. split; [exact Hm'|].
    intros i k. rewrite Hentry, !Hentry1.
    destruct (Nat.lt_ge_cases i s) as [Hlt | Hge].
    + replace (S s <=? i)%nat with false by (symmetry; apply Nat.leb_gt; lia).
      replace (s <=? i)%nat with false by (symmetry; apply Nat.leb_gt; lia).
      replace (i =? s)%nat with false by (symmetry; apply Nat.eqb_neq; lia).
      reflexivity.
    + replace (s <=? i)%nat with true by (symmetry; apply Nat.leb_le; lia).
      destruct (Nat.eq_dec i s) as [-> | Hne].
      * replace (S s <=? s)%nat with false
          by (symmetry; apply Nat.leb_gt; lia).
        replace (s <? s + S (length ts))%nat with true
          by (symmetry; apply Nat.ltb_lt; lia).
        rewrite Nat.sub_diag, Nat.eqb_refl. simpl. rewrite Hk0.
        rewrite (Nat.eqb_sym k k0). reflexivity.
      * replace (S s <=? i)%nat with true by (symmetry; apply Nat.leb_le; lia).
        replace (i =? s)%nat with false by (symmetry; apply Nat.eqb_neq; lia).
        replace (i <? s + S (length ts))%nat
          with (i <? S s + length ts)%nat by (f_equal; lia).
        simpl.
        replace (i - s)%nat with (S (i - S s)) by lia.
        reflexivity.
Qed.

Lemma index_put_rows_none (n c : nat) (v : R) (ts : list Z) (s : nat)
  (m : matrix) :
  dims n c m -> (s + length ts <= n)%nat ->
  Exists (fun t => wrap c t = None) ts ->
  index_put m (combine (seq s (length ts)) ts) v = None.
Proof.
  revert s m.
  induction ts as [|t ts IH]; intros s m Hm Hs Hbad;
    [inversion Hbad|].
  simpl in Hs |- *.
  destruct (wrap c t) as [k0|] eqn:Hk0.
  - destruct (set_entry_some n c m s t k0 v Hm ltac:(lia) Hk0)
      as (m1 & Hset & Hm1 & _).
    rewrite Hset. simpl.
    apply IH; [exact Hm1 | lia |].
    inversion Hbad; subst; [congruence | assumption].
  - rewrite (set_entry_none n c) by (assumption || lia). reflexivity.
Qed.

Lemma entry_zeros (n c i k : nat) : entry (zeros n c) i k = 0.
Proof.
  unfold entry, zeros.
  destruct (Nat.lt_ge_cases i n) as [Hi | Hi].
  - rewrite (nth_indep _ [] (repeat 0 c)) by now rewrite repeat_length.
    rewrite nth_repeat.
    apply nth_repeat.
  - rewrite (nth_overflow (repeat _ n)) by now rewrite repeat_length.
    now destruct k.
Qed.

Lemma dims_zeros (n c : nat) : dims n c (zeros n c).
Proof.
  unfold zeros. split; [apply repeat_length|].
  apply Forall_forall. intros row Hrow.
  apply repeat_spec in Hrow. subst. apply repeat_length.
Qed.

(** The one-hot matrix, row by row, in terms of the wrapped label. *)
Lemma targets_l_oh_rows (batch_size num_classes : nat) (targets_l : list Z) :
  length targets_l = batch_size ->
  Forall (fun t => wrap num_classes t <> None) targets_l ->
  exists oh,
    targets_l_oh batch_size num_classes targets_l = Some oh
    /\ dims batch_size num_classes oh
    /\ forall i, (i < batch_size)%nat ->
        exists w,
          wrap num_classes (nth i targets_l 0%Z) = Some w
          /\ forall k, entry oh i k = if (k =? w)%nat then 1 else 0.
Proof.
  intros Hlen Hts. subst batch_size.
  destruct (index_put_rows (length targets_l) num_classes 1 targets_l 0
              (zeros (length targets_l) num_classes) (dims_zeros _ _)
              ltac:(lia) Hts) as (oh & Hput & Hoh & Hentry).
  exists oh. unfold targets_l_oh, broadcast_indices.
  rewrite length_seq, Nat.eqb_refl. simpl.
  split; [exact Hput|].
  split; [exact Hoh|].
  intros i Hi.
  rewrite Forall_forall in Hts.
  destruct (wrap num_classes (nth i targets_l 0%Z)) as [w|] eqn:Hw.
  - exists w. split; [reflexivity|]. intros k.
    rewrite Hentry. simpl.
    replace (i <? length targets_l)%nat with true
      by (symmetry; apply Nat.ltb_lt; lia).
    rewrite Nat.sub_0_r, Hw, entry_zeros. reflexivity.
  - exfalso. apply (Hts (nth i targets_l 0%Z)); [|exact Hw].
    apply nth_In. lia.
Qed.

Lemma in_range_wraps (c : nat) (ts : list Z) :
  Forall (fun t => (- Z.of_nat c <= t < Z.of_nat c)%Z) ts ->
  Forall (fun t => wrap c t <> None) ts.
Proof.
  intros H. eapply Forall_impl; [|exact H].
  intros t Ht Hnone. simpl in Ht. apply wrap_none_iff in Hnone. lia.
Qed.

(** X10.  With one label per sample, each label in
    [[-num_classes, num_classes)], the one-hot matrix is computed, has
    [batch_size] rows of [num_classes] entries, and row [i] has a 1 in the
    column of label [i] (a negative label counted from the last column) and 0
    everywhere else. *)
Theorem targets_l_oh_entries
  (batch_size num_classes : nat) (targets_l : list Z) :
  length targets_l = batch_size ->
  Forall (fun t => (- Z.of_nat num_classes <= t < Z.of_nat num_classes)%Z)
         targets_l ->
  exists oh,
    targets_l_oh batch_size num_classes targets_l = Some oh
    /\ dims batch_size num_classes oh
    /\ forall i k, (i < batch_size)%nat -> (k < num_classes)%nat ->
        entry oh i k =
        if ((nth i targets_l 0 =? Z.of_nat k)
            || (nth i targets_l 0 =? Z.of_nat k - Z.of_nat num_classes))%Z
        then 1 else 0.
Proof.
  intros Hlen Hts.
  destruct (targets_l_oh_rows _ _ _ Hlen (in_range_wraps _ _ Hts))
    as (oh & Hoh & Hdims & Hrows).
  exists oh. split; [exact Hoh|]. split; [exact Hdims|].
  intros i k Hi Hk.
  destruct (Hrows i Hi) as (w & Hw & Hentry).
  rewrite Hentry.
  apply wrap_some_iff in Hw as [Hwc Hw].
  destruct (k =? w)%nat eqn:Hkw.
  - apply Nat.eqb_eq in Hkw. subst w.
    destruct Hw as [-> | ->]; rewrite Z.eqb_refl;
      [reflexivity | now rewrite orb_true_r].
  - apply Nat.eqb_neq in Hkw.
    replace (nth i targets_l 0 =? Z.of_nat k)%Z with false
      by (symmetry; apply Z.eqb_neq; lia).
    replace (nth i targets_l 0 =? Z.of_nat k - Z.of_nat num_classes)%Z
      with false by (symmetry; apply Z.eqb_neq; lia).
    reflexivity.
Qed.

(** The end-to-end scenario of the specification: four samples, two
    classes, labels 0, 1, 0, 1. *)
Lemma targets_l_oh_entries_witness :
  exists oh,
    targets_l_oh 4 2 [0; 1; 0; 1]%Z = Some oh
    /\ dims 4 2 oh
    /\ entry oh 0 0 = 1 /\ entry oh 0 1 = 0
    /\ entry oh 1 0 = 0 /\ entry oh 1 1 = 1.
Proof.
  destruct (targets_l_oh_entries 4 2 [0; 1; 0; 1]%Z eq_refl)
    as (oh & Hoh & Hdims & Hentry).
  { repeat constructor; lia. }
  exists oh. split; [exact Hoh|]. split; [exact Hdims|].
  repeat split.
  - apply (Hentry 0%nat 0%nat); lia.
  - apply (Hentry 0%nat 1%nat); lia.
  - apply (Hentry 1%nat 0%nat); lia.
  - apply (Hentry 1%nat 1%nat); lia.
Defined.

Lemma sum_upto_indicator (n w : nat) :
  (w < n)%nat ->
  sum_upto n (fun k => if (k =? w)%nat then 1 else 0) = 1.
Proof.
  induction n as [|n IH]; intros Hw; [lia|]. simpl.
  destruct (Nat.eq_dec w n) as [-> | Hne].
  - rewrite Nat.eqb_refl.
    rewrite sum_upto_all_zero; [lra|].
    intros i Hi.
    now replace (i =? n)%nat with false by (symmetry; apply Nat.eqb_neq; lia).
  - rewrite IH by lia.
    replace (n =? w)%nat with false by (symmetry; apply Nat.eqb_neq; lia).
    lra.
Qed.

(** X11.  Every row of the one-hot matrix is a soft label: its entries are
    not negative and add up to 1. *)
Theorem targets_l_oh_distributions
  (batch_size num_classes : nat) (targets_l : list Z) :
  length targets_l = batch_size ->
  Forall (fun t => (- Z.of_nat num_classes <= t < Z.of_nat num_classes)%Z)
         targets_l ->
  exists oh,
    targets_l_oh batch_size num_classes targets_l = Some oh
    /\ Forall distribution oh.
Proof.
  intros Hlen Hts.
  destruct (targets_l_oh_rows _ _ _ Hlen (in_range_wraps _ _ Hts))
    as (oh & Hoh & Hdims & Hrows).
  exists oh. split; [exact Hoh|].
  apply Forall_forall. intros row Hrow.
  destruct (In_nth _ _ [] Hrow) as (i & Hi & <-).
  pose proof Hdims as [Hn _]. rewrite Hn in Hi.
  destruct (Hrows i Hi) as (w & Hw & Hentry).
  apply wrap_some_iff in Hw as [Hwc _].
  pose proof (dims_row _ _ _ i Hdims Hi) as Hrowlen.
  split.
  - rewrite Rsum_nth, Hrowlen.
    rewrite (sum_upto_ext _ _ (fun k => if (k =? w)%nat then 1 else 0)).
    + now apply sum_upto_indicator.
    + intros k _. apply Hentry.
  - apply Forall_forall. intros x Hx.
    destruct (In_nth _ _ 0 Hx) as (k & _ & <-).
    change (0 <= entry oh i k). rewrite Hentry.
    destruct (k =? w)%nat; lra.
Qed.

Lemma targets_l_oh_distributions_witness :
  exists oh,
    targets_l_oh 3 2 [0; 1; -1]%Z = Some oh /\ Forall distribution oh.
Proof.
  apply targets_l_oh_distributions; [reflexivity|].
  repeat constructor; lia.
Defined.

(** X12.  With one label per sample, building the one-hot matrix fails (an
    [IndexError]) exactly when some label lies outside
    [[-num_classes, num_classes)]. *)
Theorem targets_l_oh_fails_iff
  (batch_size num_classes : nat) (targets_l : list Z) :
  length targets_l = batch_size ->
  targets_l_oh batch_size num_classes targets_l = None <->
  Exists (fun t => (t < - Z.of_nat num_classes \/ Z.of_nat num_classes <= t)%Z)
         targets_l.
Proof.
  intros Hlen. split.
  - intros Hnone.
    destruct (Exists_dec
                (fun t => (t < - Z.of_nat num_classes
                           \/ Z.of_nat num_classes <= t)%Z) targets_l)
      as [Hbad | Hgood]; [| exact Hbad |].
    + intros t.
      destruct (Z_lt_dec t (- Z.of_nat num_classes));
        destruct (Z_le_dec (Z.of_nat num_classes) t); (left; lia) || idtac.
      right. lia.
    + exfalso. apply Forall_Exists_neg in Hgood.
      assert (Hin : Forall (fun t => wrap num_classes t <> None) targets_l).
      { eapply Forall_impl; [|exact Hgood].
        intros t Ht Hw. simpl in Ht. apply wrap_none_iff in Hw.
        exact (Ht Hw). }
      destruct (targets_l_oh_rows _ _ _ Hlen Hin) as (oh & Hoh & _).
      congruence.
  - intros Hbad. unfold targets_l_oh, broadcast_indices.
    rewrite length_seq, <- Hlen, Nat.eqb_refl. simpl.
    apply (index_put_rows_none (length targets_l) num_classes).
    + apply dims_zeros.
    + lia.
    + eapply Exists_impl; [|exact Hbad].
      intros t Ht. now apply wrap_none_iff.
Qed.

Lemma targets_l_oh_fails_iff_witness :
  targets_l_oh 2 2 [0; 2]%Z = None.
Proof.
  apply (targets_l_oh_fails_iff 2 2 [0; 2]%Z eq_refl).
  apply Exists_cons_tl, Exists_cons_hd. right. simpl. lia.
Defined.

(** X13.  The label -1, which line 112 reads as the mark of a sample without
    label, is a valid index for line 50: its row of the one-hot matrix is the
    one-hot row of the last class. *)
Theorem targets_l_oh_minus_one
  (batch_size num_classes : nat) (targets_l : list Z) (i : nat) :
  length targets_l = batch_size ->
  Forall (fun t => (- Z.of_nat num_classes <= t < Z.of_nat num_classes)%Z)
         targets_l ->
  nth_error targets_l i = Some (-1)%Z ->
  exists oh,
    targets_l_oh batch_size num_classes targets_l = Some oh
    /\ entry oh i (num_classes - 1) = 1
    /\ forall k, (k < num_classes - 1)%nat -> entry oh i k = 0.
Proof.
  intros Hlen Hts Hi.
  assert (Hib : (i < batch_size)%nat).
  { rewrite <- Hlen. apply nth_error_Some. congruence. }
  assert (Hnth : nth i targets_l 0%Z = (-1)%Z)
    by (now apply nth_error_nth).
  assert (Hc : (0 < num_classes)%nat).
  { rewrite Forall_forall in Hts.
    specialize (Hts (-1)%Z (nth_error_In _ _ Hi)). lia. }
  destruct (targets_l_oh_rows _ _ _ Hlen (in_range_wraps _ _ Hts))
    as (oh & Hoh & Hdims & Hrows).
  exists oh. split; [exact Hoh|].
  destruct (Hrows i Hib) as (w & Hw & Hentry).
  rewrite Hnth in Hw. apply wrap_some_iff in Hw as [Hwc Hw].
  assert (w = (num_classes - 1)%nat) by lia. subst w.
  split.
  - rewrite Hentry. now rewrite Nat.eqb_refl.
  - intros k Hk. rewrite Hentry.
    now replace (k =? num_classes - 1)%nat with false
      by (symmetry; apply Nat.eqb_neq; lia).
Qed.

Lemma targets_l_oh_minus_one_witness :
  exists oh,
    targets_l_oh 2 3 [1; -1]%Z = Some oh
    /\ entry oh 1 2 = 1
    /\ forall k, (k < 2)%nat -> entry oh 1 k = 0.
Proof.
  apply (targets_l_oh_minus_one 2 3 [1; -1]%Z 1);
    [reflexivity | repeat constructor; lia | reflexivity].
Defined.

End OneHot.

(** ** Label guessing: symmetry and order *)

Section GuessMore.

Import Routine.

Lemma map2_comm {A B : Type} (f : A -> A -> B) (l l' : list A) :
  (forall a b, f a b = f b a) -> map2 f l l' = map2 f l' l.
Proof.
  intros Hf. revert l'.
  induction l as [|a l IH]; intros [|b l']; simpl; try reflexivity.
  now rewrite Hf, IH.
Qed.

Lemma matrix_same_shape_sym (a b : matrix) :
  Matrix.same_shape a b = Matrix.same_shape b a.
Proof.
  unfold Matrix.same_shape.
  destruct (list_eq_dec Nat.eq_dec (map (@length R) a) (map (@length R) b)),
           (list_eq_dec Nat.eq_dec (map (@length R) b) (map (@length R) a));
    congruence.
Qed.

(** X14.  The guessed labels do not depend on which of the two views is
    called the first: exchanging [outputs_u1] and [outputs_u2] gives the same
    result, errors included. *)
Theorem targets_u_views_exchange (T : R) (outputs_u1 outputs_u2 : matrix) :
  targets_u T outputs_u1 outputs_u2 = targets_u T outputs_u2 outputs_u1.
Proof.
  unfold targets_u, p, add, ewise.
  rewrite (matrix_same_shape_sym (softmax outputs_u1)).
  destruct (Matrix.same_shape (softmax outputs_u2) (softmax outputs_u1));
    [|reflexivity].
  simpl. do 3 f_equal.
  apply map2_comm. intros a b. apply map2_comm. intros x y. ring.
Qed.

Lemma entry_div_row_sums (n c : nat) (m : matrix) (i k : nat) :
  dims n c m -> (i < n)%nat -> (k < c)%nat ->
  entry (div_row_sums m) i k = entry m i k / Rsum (nth i m []).
Proof.
  intros Hm Hi Hk. unfold entry, div_row_sums.
  pose proof (dims_row _ _ _ i Hm Hi) as Hrow. destruct Hm as [Hn _].
  rewrite (nth_map_in _ m i [] []) by lia.
  apply (nth_map_in (fun x => x / Rsum (nth i m []))). lia.
Qed.

Lemma unit_row_entry_pos (n c : nat) (m : matrix) (i k : nat) :
  dims n c m -> Forall unit_row m -> (i < n)%nat -> (k < c)%nat ->
  0 < entry m i k.
Proof.
  intros Hm Hrows Hi Hk.
  pose proof (dims_row _ _ _ i Hm Hi) as Hrow. destruct Hm as [Hn _].
  rewrite Forall_forall in Hrows.
  destruct (Hrows (nth i m [])) as [_ Hpos]; [apply nth_In; lia|].
  rewrite Forall_forall in Hpos. apply Hpos.
  unfold entry. apply nth_In. lia.
Qed.

(** X15.  Sharpening keeps the order of the classes: for a temperature
    [T > 0], a class that the averaged prediction [p] of a sample ranks no
    higher than another is ranked no higher by the guessed label of that
    sample. *)
Theorem targets_u_keeps_order
  (T : R) (n c : nat) (outputs_u1 outputs_u2 : matrix) :
  0 < T ->
  dims n c outputs_u1 -> dims n c outputs_u2 ->
  exists pm tu,
    p outputs_u1 outputs_u2 = Some pm
    /\ targets_u T outputs_u1 outputs_u2 = Some tu
    /\ forall i k k', (i < n)%nat -> (k < c)%nat -> (k' < c)%nat ->
        entry pm i k <= entry pm i k' ->
        entry tu i k <= entry tu i k'.
Proof.
  intros HT H1 H2.
  destruct (p_dims n c _ _ H1 H2) as (pm & Hp & Hdims).
  destruct (p_value _ _ _ Hp) as [_ Hrows].
  exists pm, (div_row_sums (pow_scalar pm (1 / T))).
  split; [exact Hp|]. split.
  { unfold targets_u, pt. rewrite Hp. simpl.
    destruct (Req_dec_T T 0); [lra|reflexivity]. }
  intros i k k' Hi Hk Hk' Hle.
  assert (Hpow : dims n c (pow_scalar pm (1 / T)))
    by (apply dims_map; exact Hdims).
  rewrite !(entry_div_row_sums n c) by assumption.
  unfold pow_scalar at 1 3. rewrite !(entry_map n c) by assumption.
  assert (Hsum : 0 < Rsum (nth i (pow_scalar pm (1 / T)) [])).
  { pose proof (dims_row _ _ _ i Hpow Hi) as Hrow.
    apply Rsum_pos.
    - intros E. rewrite E in Hrow. simpl in Hrow. lia.
    - unfold pow_scalar. destruct Hdims as [Hn _].
      rewrite (nth_map_in _ pm i [] []) by lia. apply pow_row_pos. }
  unfold Rdiv. apply Rmult_le_compat_r.
  - apply Rlt_le, Rinv_0_lt_compat, Hsum.
  - apply Rle_Rpower_l.
    + apply Rlt_le. unfold Rdiv. rewrite Rmult_1_l.
      apply Rinv_0_lt_compat, HT.
    + split; [|exact Hle].
      now apply (unit_row_entry_pos n c).
Qed.

Lemma targets_u_keeps_order_witness :
  exists pm tu,
    p [[0; 1]; [2; 2]] [[1; 0]; [0; 3]] = Some pm
    /\ targets_u 0.5 [[0; 1]; [2; 2]] [[1; 0]; [0; 3]] = Some tu
    /\ forall i k k', (i < 2)%nat -> (k < 2)%nat -> (k' < 2)%nat ->
        entry pm i k <= entry pm i k' ->
        entry tu i k <= entry tu i k'.
Proof.
  apply (targets_u_keeps_order 0.5 2 2);
    [lra | split; [reflexivity | repeat constructor] ..].
Defined.

End GuessMore.

(** ** Mixup (lines 66-74 of routine) *)

Section Mixup.

Import Index Train.

Lemma l_range (draw : R) : 0 <= draw <= 1 -> 0.5 <= Routine.l draw <= 1.
Proof.
  intros [Hlo Hhi]. unfold Routine.l, Rmax.
  destruct (Rle_dec draw (1 - draw)); lra.
Qed.

(** *** Selecting rows *)

Lemma index_rows_map (m : matrix) (idx : list nat) :
  Forall (fun i => (i < length m)%nat) idx ->
  index_rows m idx = Some (map (fun i => nth i m []) idx).
Proof.
  induction 1 as [|i idx Hi Hidx IH]; simpl; [reflexivity|].
  rewrite (nth_error_nth' m [] Hi), IH. reflexivity.
Qed.

Lemma permutation_indices (idx : list nat) (n : nat) :
  Permutation idx (seq 0 n) ->
  length idx = n /\ Forall (fun i => (i < n)%nat) idx.
Proof.
  intros Hperm. split.
  - rewrite (Permutation_length Hperm). apply length_seq.
  - apply Forall_forall. intros i Hi.
    apply (Permutation_in _ Hperm), in_seq in Hi. lia.
Qed.

Lemma dims_selected (n c : nat) (m : matrix) (idx : list nat) :
  dims n c m -> length idx = n -> Forall (fun i => (i < n)%nat) idx ->
  dims n c (map (fun i => nth i m []) idx).
Proof.
  intros Hm Hlen Hidx. split; [now rewrite length_map|].
  apply Forall_map. eapply Forall_impl; [|exact Hidx].
  intros i Hi. now apply (dims_row n c).
Qed.

Lemma entry_selected (n : nat) (m : matrix) (idx : list nat) (i k : nat) :
  length idx = n -> (i < n)%nat ->
  entry (map (fun j => nth j m []) idx) i k = entry m (nth i idx 0%nat) k.
Proof.
  intros Hlen Hi. unfold entry.
  now rewrite (nth_map_in (fun j => nth j m []) idx i 0%nat []) by lia.
Qed.

(** One of the two mixes of [mixup]. *)
Lemma mix_one (n c : nat) (l : R) (idx : list nat) (a : matrix) :
  dims n c a -> length idx = n -> Forall (fun i => (i < n)%nat) idx ->
  exists b mixed,
    index_rows a idx = Some b
    /\ add (scale l a) (scale (1 - l) b) = Some mixed
    /\ dims n c mixed
    /\ forall i k, (i < n)%nat -> (k < c)%nat ->
        entry mixed i k =
        l * entry a i k + (1 - l) * entry a (nth i idx 0%nat) k.
Proof.
  intros Ha Hlen Hidx.
  pose proof (dims_selected n c a idx Ha Hlen Hidx) as Hb.
  exists (map (fun i => nth i a []) idx).
  exists (map2 (map2 Rplus) (scale l a)
            (scale (1 - l) (map (fun i => nth i a []) idx))).
  assert (Hsa : dims n c (scale l a)) by now apply dims_map.
  assert (Hsb : dims n c (scale (1 - l) (map (fun i => nth i a []) idx)))
    by now apply dims_map.
  split.
  { apply index_rows_map. destruct Ha as [-> _]. exact Hidx. }
  split.
  { unfold add, ewise. now rewrite (dims_same_shape n c). }
  split; [now apply dims_map2|].
  intros i k Hi Hk.
  rewrite (entry_map2 n c) by assumption.
  unfold scale. rewrite !(entry_map n c) by assumption.
  now rewrite (entry_selected n).
Qed.

(** X16.  For a batch of [n] samples and a permutation of its indices,
    [mixup] succeeds, keeps the dimensions of inputs and targets, and mixes
    sample [i] with sample [idx[i]]: each entry is [l] times the entry of
    sample [i] plus [1 - l] times the entry of sample [idx[i]], with the
    same [l = max(draw, 1 - draw)] and the same partner for the input and for
    the target. *)
Theorem mixup_entries
  (draw : R) (idx : list nat) (n c c' : nat) (all_inputs all_targets : matrix) :
  dims n c all_inputs -> dims n c' all_targets ->
  Permutation idx (seq 0 n) ->
  exists mixed_input mixed_target,
    mixup draw idx all_inputs all_targets = Some (mixed_input, mixed_target)
    /\ dims n c mixed_input /\ dims n c' mixed_target
    /\ forall i, (i < n)%nat ->
        (forall k, (k < c)%nat ->
           entry mixed_input i k =
           Routine.l draw * entry all_inputs i k
           + (1 - Routine.l draw) * entry all_inputs (nth i idx 0%nat) k)
        /\ (forall k, (k < c')%nat ->
           entry mixed_target i k =
           Routine.l draw * entry all_targets i k
           + (1 - Routine.l draw) * entry all_targets (nth i idx 0%nat) k).
Proof.
  intros Hin Htg Hperm.
  destruct (permutation_indices _ _ Hperm) as [Hlen Hidx].
  destruct (mix_one n c (Routine.l draw) idx _ Hin Hlen Hidx)
    as (ib & mi & Hib & Hmi & Hdi & Hei).
  destruct (mix_one n c' (Routine.l draw) idx _ Htg Hlen Hidx)
    as (tb & mt & Htb & Hmt & Hdt & Het).
  exists mi, mt. unfold mixup. rewrite Hib. simpl. rewrite Htb. simpl.
  rewrite Hmi. simpl. rewrite Hmt. simpl.
  split; [reflexivity|]. split; [exact Hdi|]. split; [exact Hdt|].
  intros i Hi. split; intros k Hk; [apply Hei | apply Het]; assumption.
Qed.

Lemma mixup_entries_witness :
  exists mixed_input mixed_target,
    mixup 0.25 [1; 0]%nat [[2]; [4]] [[1; 0]; [0; 1]]
    = Some (mixed_input, mixed_target)
    /\ dims 2 1 mixed_input /\ dims 2 2 mixed_target
    /\ entry mixed_target 0 0 = 0.75.
Proof.
  destruct (mixup_entries 0.25 [1; 0]%nat 2 1 2 [[2]; [4]] [[1; 0]; [0; 1]])
    as (mi & mt & Hmix & Hdi & Hdt & Hentries).
  - split; [reflexivity | repeat constructor].
  - split; [reflexivity | repeat constructor].
  - apply perm_swap.
  - exists mi, mt. repeat split; try assumption; try apply Hdi; try apply Hdt.
    destruct (Hentries 0%nat ltac:(lia)) as [_ Ht].
    rewrite (Ht 0%nat ltac:(lia)).
    unfold Routine.l, Rmax, entry. simpl.
    destruct (Rle_dec 0.25 (1 - 0.25)); lra.
Defined.

(** *** Sums over classes and over samples *)

Lemma sum_upto_linear (n : nat) (x y : R) (f g : nat -> R) :
  sum_upto n (fun k => x * f k + y * g k)
  = x * sum_upto n f + y * sum_upto n g.
Proof.
  induction n as [|n IH]; simpl; [ring|]. rewrite IH. ring.
Qed.

Lemma Rsum_row_entries (n c : nat) (m : matrix) (i : nat) :
  dims n c m -> (i < n)%nat ->
  Rsum (nth i m []) = sum_upto c (fun k => entry m i k).
Proof.
  intros Hm Hi. rewrite Rsum_nth, (dims_row n c m i Hm Hi). reflexivity.
Qed.

Lemma distribution_row (n c : nat) (m : matrix) (i : nat) :
  dims n c m -> Forall distribution m -> (i < n)%nat ->
  sum_upto c (fun k => entry m i k) = 1
  /\ forall k, 0 <= entry m i k.
Proof.
  intros Hm Hrows Hi.
  rewrite <- (Rsum_row_entries n c m i Hm Hi).
  rewrite Forall_forall in Hrows.
  destruct (Hrows (nth i m [])) as [Hsum Hpos].
  { apply nth_In. destruct Hm as [-> _]. exact Hi. }
  split; [exact Hsum|].
  intros k. unfold entry.
  destruct (Nat.lt_ge_cases k (length (nth i m []))) as [Hk | Hk].
  - rewrite Forall_forall in Hpos. apply Hpos, nth_In, Hk.
  - rewrite nth_overflow by exact Hk. lra.
Qed.

Lemma mixup_soft_labels
  (draw : R) (idx : list nat) (n c c' : nat) (all_inputs all_targets : matrix) :
  0 <= draw <= 1 ->
  dims n c all_inputs -> dims n c' all_targets ->
  Permutation idx (seq 0 n) ->
  Forall distribution all_targets ->
  exists mixed_input mixed_target,
    mixup draw idx all_inputs all_targets = Some (mixed_input, mixed_target)
    /\ dims n c mixed_input
    /\ dims n c' mixed_target
    /\ Forall distribution mixed_target.
Proof.
  intros Hdraw Hin Htg Hperm Hdist.
  destruct (permutation_indices _ _ Hperm) as [Hlen Hidx].
  destruct (mix_one n c (Routine.l draw) idx _ Hin Hlen Hidx)
    as (ib & mi & Hib & Hmi & Hdi & Hei).
  destruct (mix_one n c' (Routine.l draw) idx _ Htg Hlen Hidx)
    as (tb & mt & Htb & Hmt & Hdt & Het).
  exists mi, mt. unfold mixup. rewrite Hib. simpl. rewrite Htb. simpl.
  rewrite Hmi. simpl. rewrite Hmt. simpl.
  split; [reflexivity|]. split; [exact Hdi|]. split; [exact Hdt|].
  pose proof (l_range draw Hdraw) as Hl.
  apply Forall_forall. intros row Hrow.
  destruct (In_nth _ _ [] Hrow) as (i & Hi & <-).
  pose proof Hdt as [Hn _]. rewrite Hn in Hi.
  assert (Hj : (nth i idx 0 < n)%nat).
  { rewrite Forall_forall in Hidx. apply Hidx, nth_In. lia. }
  destruct (distribution_row n c' _ i Htg Hdist Hi) as [Hsi Hpi].
  destruct (distribution_row n c' _ _ Htg Hdist Hj) as [Hsj Hpj].
  split.
  - rewrite (Rsum_row_entries n c' mt i Hdt Hi).
    rewrite (sum_upto_ext _ _
               (fun k => Routine.l draw * entry all_targets i k
                         + (1 - Routine.l draw)
                           * entry all_targets (nth i idx 0%nat) k))
      by (intros k Hk; now apply Het).
    rewrite (sum_upto_linear c' _ _
               (fun k => entry all_targets i k)
               (fun k => entry all_targets (nth i idx 0%nat) k)).
    rewrite Hsi, Hsj. ring.
  - apply Forall_forall. intros x Hx.
    destruct (In_nth _ _ 0 Hx) as (k & Hk & <-).
    rewrite (dims_row n c' mt i Hdt Hi) in Hk.
    change (0 <= entry mt i k). rewrite (Het i k Hi Hk).
    specialize (Hpi k). specialize (Hpj k). nra.
Qed.

(** X17.  Mixup keeps soft labels soft labels: when every row of
    [all_targets] has non-negative entries that add up to 1 and the draw lies
    in the unit interval, so has every row of [mixed_target]. *)
Theorem mixup_targets_distributions
  (draw : R) (idx : list nat) (n c c' : nat) (all_inputs all_targets : matrix) :
  0 <= draw <= 1 ->
  dims n c all_inputs -> dims n c' all_targets ->
  Permutation idx (seq 0 n) ->
  Forall distribution all_targets ->
  exists mixed_input mixed_target,
    mixup draw idx all_inputs all_targets = Some (mixed_input, mixed_target)
    /\ dims n c' mixed_target
    /\ Forall distribution mixed_target.
Proof.
  intros Hdraw Hin Htg Hperm Hdist.
  destruct (mixup_soft_labels draw idx n c c' _ _ Hdraw Hin Htg Hperm Hdist)
    as (mi & mt & Hmix & _ & Hdt & Hrows).
  exists mi, mt. auto.
Qed.

Lemma mixup_targets_distributions_witness :
  exists mixed_input mixed_target,
    mixup 0.25 [1; 0]%nat [[2]; [4]] [[1; 0]; [0; 1]]
    = Some (mixed_input, mixed_target)
    /\ dims 2 2 mixed_target
    /\ Forall distribution mixed_target.
Proof.
  apply (mixup_targets_distributions 0.25 [1; 0]%nat 2 1 2).
  - lra.
  - split; [reflexivity | repeat constructor].
  - split; [reflexivity | repeat constructor].
  - apply perm_swap.
  - repeat constructor; simpl; lra.
Defined.

Lemma Rsum_permutation (v v' : list R) :
  Permutation v v' -> Rsum v = Rsum v'.
Proof.
  induction 1; simpl; lra.
Qed.

Lemma sum_upto_as_Rsum (n : nat) (f : nat -> R) :
  sum_upto n f = Rsum (map f (seq 0 n)).
Proof.
  rewrite Rsum_nth, length_map, length_seq.
  apply sum_upto_ext. intros i Hi.
  rewrite (nth_map_in f (seq 0 n) i 0%nat 0) by now rewrite length_seq.
  now rewrite seq_nth.
Qed.

Lemma sum_upto_reindex (n : nat) (idx : list nat) (f : nat -> R) :
  Permutation idx (seq 0 n) ->
  sum_upto n (fun i => f (nth i idx 0%nat)) = sum_upto n f.
Proof.
  intros Hperm.
  destruct (permutation_indices _ _ Hperm) as [Hlen _].
  rewrite (sum_upto_as_Rsum n f).
  rewrite <- (Rsum_permutation _ _ (Permutation_map f Hperm)).
  rewrite Rsum_nth, length_map, Hlen.
  apply sum_upto_ext. intros i Hi.
  now rewrite (nth_map_in f idx i 0%nat 0) by lia.
Qed.

Lemma column_total_entries (n : nat) (m : matrix) (k : nat) :
  length m = n ->
  column_total m k = sum_upto n (fun i => entry m i k).
Proof.
  intros Hn. unfold column_total.
  rewrite Rsum_nth, length_map, Hn.
  apply sum_upto_ext. intros i Hi. unfold entry.
  now rewrite (nth_map_in (fun row => nth k row 0) m i [] 0) by lia.
Qed.

(** X18.  Mixup moves mass between samples but creates none: because the
    partners are a permutation of the batch, the sum over the batch of each
    input entry and of each class of the targets is the same after mixing as
    before. *)
Theorem mixup_keeps_column_totals
  (draw : R) (idx : list nat) (n c c' : nat) (all_inputs all_targets : matrix) :
  dims n c all_inputs -> dims n c' all_targets ->
  Permutation idx (seq 0 n) ->
  exists mixed_input mixed_target,
    mixup draw idx all_inputs all_targets = Some (mixed_input, mixed_target)
    /\ (forall k, (k < c)%nat ->
          column_total mixed_input k = column_total all_inputs k)
    /\ (forall k, (k < c')%nat ->
          column_total mixed_target k = column_total all_targets k).
Proof.
  intros Hin Htg Hperm.
  destruct (permutation_indices _ _ Hperm) as [Hlen Hidx].
  destruct (mix_one n c (Routine.l draw) idx _ Hin Hlen Hidx)
    as (ib & mi & Hib & Hmi & Hdi & Hei).
  destruct (mix_one n c' (Routine.l draw) idx _ Htg Hlen Hidx)
    as (tb & mt & Htb & Hmt & Hdt & Het).
  exists mi, mt. unfold mixup. rewrite Hib. simpl. rewrite Htb. simpl.
  rewrite Hmi. simpl. rewrite Hmt. simpl.
  split; [reflexivity|].
  split; intros k Hk.
  - rewrite (column_total_entries n mi) by apply Hdi.
    rewrite (column_total_entries n all_inputs) by apply Hin.
    rewrite (sum_upto_ext _ _
               (fun i => Routine.l draw * entry all_inputs i k
                         + (1 - Routine.l draw)
                           * entry all_inputs (nth i idx 0%nat) k))
      by (intros i Hi; now apply Hei).
    rewrite (sum_upto_linear n _ _
               (fun i => entry all_inputs i k)
               (fun i => entry all_inputs (nth i idx 0%nat) k)).
    rewrite (sum_upto_reindex n idx (fun i => entry all_inputs i k) Hperm).
    ring.
  - rewrite (column_total_entries n mt) by apply Hdt.
    rewrite (column_total_entries n all_targets) by apply Htg.
    rewrite (sum_upto_ext _ _
               (fun i => Routine.l draw * entry all_targets i k
                         + (1 - Routine.l draw)
                           * entry all_targets (nth i idx 0%nat) k))
      by (intros i Hi; now apply Het).
    rewrite (sum_upto_linear n _ _
               (fun i => entry all_targets i k)
               (fun i => entry all_targets (nth i idx 0%nat) k)).
    rewrite (sum_upto_reindex n idx (fun i => entry all_targets i k) Hperm).
    ring.
Qed.

Lemma mixup_keeps_column_totals_witness :
  exists mixed_input mixed_target,
    mixup 0.25 [1; 0]%nat [[2]; [4]] [[1; 0]; [0; 1]]
    = Some (mixed_input, mixed_target)
    /\ column_total mixed_input 0 = 6.
Proof.
  destruct (mixup_keeps_column_totals 0.25 [1; 0]%nat 2 1 2
              [[2]; [4]] [[1; 0]; [0; 1]])
    as (mi & mt & Hmix & Hci & _).
  - split; [reflexivity | repeat constructor].
  - split; [reflexivity | repeat constructor].
  - apply perm_swap.
  - exists mi, mt. split; [exact Hmix|].
    rewrite (Hci 0%nat ltac:(lia)). unfold column_total. simpl. lra.
Defined.

(** X19.  Taking [max(draw, 1 - draw)] keeps every mixed sample on the side
    of its own original: each entry of mixed sample [i] is at least as close
    to the entry of sample [i] as to the entry of its partner [idx[i]]. *)
Theorem mixup_stays_near_own_sample
  (draw : R) (idx : list nat) (n c c' : nat) (all_inputs all_targets : matrix) :
  0 <= draw <= 1 ->
  dims n c all_inputs -> dims n c' all_targets ->
  Permutation idx (seq 0 n) ->
  exists mixed_input mixed_target,
    mixup draw idx all_inputs all_targets = Some (mixed_input, mixed_target)
    /\ forall i, (i < n)%nat ->
        (forall k, (k < c)%nat ->
           Rabs (entry mixed_input i k - entry all_inputs i k)
           <= Rabs (entry mixed_input i k
                    - entry all_inputs (nth i idx 0%nat) k))
        /\ (forall k, (k < c')%nat ->
           Rabs (entry mixed_target i k - entry all_targets i k)
           <= Rabs (entry mixed_target i k
                    - entry all_targets (nth i idx 0%nat) k)).
Proof.
  intros Hdraw Hin Htg Hperm.
  destruct (permutation_indices _ _ Hperm) as [Hlen Hidx].
  destruct (mix_one n c (Routine.l draw) idx _ Hin Hlen Hidx)
    as (ib & mi & Hib & Hmi & Hdi & Hei).
  destruct (mix_one n c' (Routine.l draw) idx _ Htg Hlen Hidx)
    as (tb & mt & Htb & Hmt & Hdt & Het).
  exists mi, mt. unfold mixup. rewrite Hib. simpl. rewrite Htb. simpl.
  rewrite Hmi. simpl. rewrite Hmt. simpl.
  split; [reflexivity|].
  pose proof (l_range draw Hdraw) as Hl.
  assert (Hnear : forall a b,
             Rabs (Routine.l draw * a + (1 - Routine.l draw) * b - a)
             <= Rabs (Routine.l draw * a + (1 - Routine.l draw) * b - b)).
  { intros a b.
    replace (Routine.l draw * a + (1 - Routine.l draw) * b - a)
      with ((1 - Routine.l draw) * (b - a)) by ring.
    replace (Routine.l draw * a + (1 - Routine.l draw) * b - b)
      with (Routine.l draw * - (b - a)) by ring.
    rewrite !Rabs_mult, Rabs_Ropp.
    rewrite (Rabs_right (1 - Routine.l draw)) by lra.
    rewrite (Rabs_right (Routine.l draw)) by lra.
    apply Rmult_le_compat_r; [apply Rabs_pos | lra]. }
  intros i Hi. split; intros k Hk.
  - rewrite (Hei i k Hi Hk). apply Hnear.
  - rewrite (Het i k Hi Hk). apply Hnear.
Qed.

Lemma mixup_stays_near_own_sample_witness :
  exists mixed_input mixed_target,
    mixup 0.25 [1; 0]%nat [[2]; [4]] [[1; 0]; [0; 1]]
    = Some (mixed_input, mixed_target)
    /\ Rabs (entry mixed_input 0 0 - 2) <= Rabs (entry mixed_input 0 0 - 4).
Proof.
  destruct (mixup_stays_near_own_sample 0.25 [1; 0]%nat 2 1 2
              [[2]; [4]] [[1; 0]; [0; 1]])
    as (mi & mt & Hmix & Hnear).
  - lra.
  - split; [reflexivity | repeat constructor].
  - split; [reflexivity | repeat constructor].
  - apply perm_swap.
  - exists mi, mt. split; [exact Hmix|].
    destruct (Hnear 0%nat ltac:(lia)) as [Hi _].
    exact (Hi 0%nat ltac:(lia)).
Defined.

End Mixup.

(** ** From labels and logits to the mixed batch (lines 49-74) *)

Section Pipeline.

Import Index Train.

Lemma guessed_soft_labels (T : R) (n c : nat) (outputs_u1 outputs_u2 : matrix) :
  0 < T -> (0 < c)%nat ->
  dims n c outputs_u1 -> dims n c outputs_u2 ->
  exists tu,
    Routine.targets_u T outputs_u1 outputs_u2 = Some tu
    /\ dims n c tu /\ Forall distribution tu.
Proof.
  intros HT Hc H1 H2.
  destruct (p_dims n c _ _ H1 H2) as (pm & Hp & [Hn Hrows]).
  exists (div_row_sums (pow_scalar pm (1 / T))).
  unfold Routine.targets_u, Routine.pt. rewrite Hp. simpl.
  destruct (Req_dec_T T 0) as [Hz | _]; [lra|]. simpl.
  split; [reflexivity|].
  unfold div_row_sums, pow_scalar. rewrite map_map.
  split; [split|].
  - now rewrite length_map.
  - apply Forall_map. eapply Forall_impl; [|exact Hrows].
    intros row Hrow. simpl. now rewrite !length_map.
  - apply Forall_map. eapply Forall_impl; [|exact Hrows].
    intros row Hrow. simpl.
    apply normalised_row; [|apply pow_row_pos].
    destruct row; [simpl in Hrow; lia|discriminate].
Qed.

Lemma cat_three (n1 n2 n3 c : nat) (a b d : matrix) :
  dims n1 c a -> dims n2 c b -> dims n3 c d ->
  cat [a; b; d] = Some (a ++ b ++ d)
  /\ dims (n1 + n2 + n3) c (a ++ b ++ d).
Proof.
  intros [Hn1 Ha] [Hn2 Hb] [Hn3 Hd].
  assert (Hrows : Forall (fun row => length row = c) (a ++ b ++ d))
    by (repeat (apply Forall_app; split); assumption).
  split.
  - unfold cat. simpl. rewrite app_nil_r.
    destruct (a ++ b ++ d) as [|row rest] eqn:E; [reflexivity|].
    replace (forallb (fun r => (length r =? length row)%nat) (row :: rest))
      with true; [reflexivity|].
    symmetry. apply forallb_forall. intros r Hr.
    rewrite Forall_forall in Hrows. apply Nat.eqb_eq.
    rewrite (Hrows r Hr), (Hrows row (or_introl eq_refl)). reflexivity.
  - split; [|exact Hrows].
    rewrite !length_app. lia.
Qed.

(** X20.  The invariant of the data model carried through the routine: with
    one valid label per labeled sample, logits of the two views of
    [batch_size] unlabeled samples over at least one class, a temperature
    above 0, a draw in the unit interval and a permutation of the
    [3 * batch_size] indices, lines 49-74 succeed and every row of
    [mixed_target] is a soft label (non-negative, adding up to 1). *)
Theorem mixed_targets_are_soft_labels
  (batch_size num_classes width : nat) (targets_l : list Z)
  (inputs_l inputs_u1 inputs_u2 outputs_u1 outputs_u2 : matrix)
  (T draw : R) (idx : list nat) :
  length targets_l = batch_size ->
  Forall (fun t => (- Z.of_nat num_classes <= t < Z.of_nat num_classes)%Z)
         targets_l ->
  (0 < num_classes)%nat -> 0 < T -> 0 <= draw <= 1 ->
  dims batch_size width inputs_l ->
  dims batch_size width inputs_u1 ->
  dims batch_size width inputs_u2 ->
  dims batch_size num_classes outputs_u1 ->
  dims batch_size num_classes outputs_u2 ->
  Permutation idx (seq 0 (batch_size + batch_size + batch_size)) ->
  exists mixed_input mixed_target,
    mixed batch_size num_classes targets_l
          inputs_l inputs_u1 inputs_u2 outputs_u1 outputs_u2 T draw idx
    = Some (mixed_input, mixed_target)
    /\ dims (batch_size + batch_size + batch_size) width mixed_input
    /\ dims (batch_size + batch_size + batch_size) num_classes mixed_target
    /\ Forall distribution mixed_target.
Proof.
  intros Hlen Hts Hc HT Hdraw Hl H1 H2 Ho1 Ho2 Hperm.
  destruct (targets_l_oh_rows _ _ _ Hlen (in_range_wraps _ _ Hts))
    as (oh & Hoh & Hdoh & Hrows).
  assert (Hsoft : Forall distribution oh).
  { apply Forall_forall. intros row Hrow.
    destruct (In_nth _ _ [] Hrow) as (i & Hi & <-).
    pose proof Hdoh as [Hn _]. rewrite Hn in Hi.
    destruct (Hrows i Hi) as (w & Hw & Hentry).
    apply wrap_some_iff in Hw as [Hwc _].
    split.
    - rewrite (Rsum_row_entries _ _ oh i Hdoh Hi).
      rewrite (sum_upto_ext _ _ (fun k => if (k =? w)%nat then 1 else 0))
        by (intros k _; apply Hentry).
      now apply sum_upto_indicator.
    - apply Forall_forall. intros x Hx.
      destruct (In_nth _ _ 0 Hx) as (k & _ & <-).
      change (0 <= entry oh i k). rewrite Hentry.
      destruct (k =? w)%nat; lra. }
  destruct (guessed_soft_labels T _ _ _ _ HT Hc Ho1 Ho2)
    as (tu & Htu & Hdtu & Hsofttu).
  destruct (cat_three _ _ _ _ _ _ _ Hl H1 H2) as [Hcat_in Hdin].
  destruct (cat_three _ _ _ _ _ _ _ Hdoh Hdtu Hdtu) as [Hcat_tg Hdtg].
  unfold mixed. rewrite Hoh. simpl. rewrite Htu. simpl.
  rewrite Hcat_in. simpl. rewrite Hcat_tg. simpl.
  apply (mixup_soft_labels draw idx _ width num_classes);
    try assumption.
  repeat (apply Forall_app; split); assumption.
Qed.

Lemma mixed_targets_are_soft_labels_witness :
  exists mixed_input mixed_target,
    mixed 1 2 [1%Z] [[5]] [[6]] [[7]] [[0; 1]] [[1; 0]] 0.5 0.25
          [2; 0; 1]%nat
    = Some (mixed_input, mixed_target)
    /\ dims 3 1 mixed_input
    /\ dims 3 2 mixed_target
    /\ Forall distribution mixed_target.
Proof.
  apply (mixed_targets_are_soft_labels 1 2 1);
    try reflexivity; try lra; try lia;
    try (split; [reflexivity | repeat constructor]).
  - repeat constructor; lia.
  - apply (Permutation_cons_app [0; 1]%nat [] 2%nat). apply Permutation_refl.
Defined.

(** X21.  The index tensor is drawn for [all_inputs] and used for
    [all_targets] as well: when the targets have fewer rows than the inputs,
    the indexing of line 71 is out of range and [mixup] fails. *)
Theorem mixup_fails_on_short_targets
  (draw : R) (idx : list nat) (all_inputs all_targets : matrix) :
  Permutation idx (seq 0 (length all_inputs)) ->
  (length all_targets < length all_inputs)%nat ->
  mixup draw idx all_inputs all_targets = None.
Proof.
  intros Hperm Hshort.
  destruct (permutation_indices _ _ Hperm) as [_ Hidx].
  unfold mixup. rewrite (index_rows_map _ _ Hidx). simpl.
  assert (Hin : In (length all_inputs - 1)%nat idx).
  { apply (Permutation_in _ (Permutation_sym Hperm)), in_seq. lia. }
  assert (Hnone : index_rows all_targets idx = None).
  { clear - Hin Hshort.
    induction idx as [|i idx IH]; [contradiction|]. simpl.
    destruct Hin as [-> | Hin].
    - replace (nth_error all_targets (length all_inputs - 1)) with
        (@None (list R)); [reflexivity|].
      symmetry. apply nth_error_None. lia.
    - rewrite (IH Hin).
      destruct (nth_error all_targets i); reflexivity. }
  rewrite Hnone. reflexivity.
Qed.

Lemma mixup_fails_on_short_targets_witness :
  mixup 0.25 [1; 0]%nat [[2]; [4]] [[1; 0]] = None.
Proof.
  apply mixup_fails_on_short_targets; [apply perm_swap | simpl; lia].
Defined.

End Pipeline.

(** ** The labeled loss on one-hot targets *)

Section CrossEntropy.

Import Index Train SemiLoss.

Lemma Lx_as_sum (n c : nat) (outputs_x targets_x : matrix) :
  dims n c outputs_x -> dims n c targets_x ->
  - mean1 (sum_dim1 (map2 (map2 Rmult) (log_softmax outputs_x) targets_x)) =
  - (sum_upto n (fun i =>
       sum_upto c (fun k =>
         ln (entry (softmax outputs_x) i k) * entry targets_x i k))
     / INR n).
Proof.
  intros Hox Htx. unfold mean1, sum_dim1. rewrite length_map.
  pose proof (dims_softmax _ _ _ Hox) as Hsx.
  assert (Hlx : dims n c (log_softmax outputs_x))
    by (rewrite log_softmax_map; now apply dims_map).
  pose proof (dims_map2 _ _ Rmult _ _ Hlx Htx) as Hprod.
  rewrite (Rsum_rows _ _ _ Hprod).
  destruct Hprod as [-> _].
  do 2 f_equal. apply sum_upto_ext. intros i Hi.
  apply sum_upto_ext. intros k Hk.
  rewrite (entry_map2 n c) by assumption.
  now rewrite log_softmax_map, (entry_map n c) by assumption.
Qed.

Lemma sum_upto_pick (n w : nat) (f : nat -> R) :
  (w < n)%nat ->
  sum_upto n (fun k => f k * (if (k =? w)%nat then 1 else 0)) = f w.
Proof.
  induction n as [|n IH]; intros Hw; [lia|]. simpl.
  destruct (Nat.eq_dec w n) as [-> | Hne].
  - rewrite Nat.eqb_refl.
    rewrite sum_upto_all_zero; [lra|].
    intros i Hi.
    replace (i =? n)%nat with false by (symmetry; apply Nat.eqb_neq; lia).
    ring.
  - rewrite IH by lia.
    replace (n =? w)%nat with false by (symmetry; apply Nat.eqb_neq; lia).
    lra.
Qed.

(** X22.  On the one-hot targets of lines 49-50 the labeled loss is the
    ordinary cross-entropy: the negative mean over the samples of the
    logarithm of the softmax probability of the sample's own class (labels
    taken in [[0, num_classes)]). *)
Theorem call_on_one_hot_is_cross_entropy
  (self : t) (n c : nat) (targets_l : list Z)
  (outputs_x outputs_u targets_u : matrix) (epoch : R) :
  length targets_l = n ->
  Forall (fun l => (0 <= l < Z.of_nat c)%Z) targets_l ->
  dims n c outputs_x ->
  Matrix.same_shape outputs_u targets_u = true ->
  exists oh Lx Lu weight,
    targets_l_oh n c targets_l = Some oh
    /\ call self outputs_x oh outputs_u targets_u epoch
       = Some (Lx, Lu, weight)
    /\ Lx = - (sum_upto n (fun i =>
                 ln (entry (softmax outputs_x) i
                           (Z.to_nat (nth i targets_l 0%Z))))
               / INR n).
Proof.
  intros Hlen Hts Hox Hu.
  assert (Hwraps : Forall (fun l => wrap c l <> None) targets_l).
  { eapply Forall_impl; [|exact Hts].
    intros l Hl Hnone. simpl in Hl. apply wrap_none_iff in Hnone. lia. }
  destruct (targets_l_oh_rows _ _ _ Hlen Hwraps)
    as (oh & Hoh & Hdoh & Hrows).
  exists oh. do 3 eexists.
  split; [exact Hoh|].
  split.
  { apply call_shapes; [|exact Hu].
    eapply dims_same_shape; eassumption. }
  rewrite (Lx_as_sum n c) by assumption.
  do 2 f_equal. apply sum_upto_ext. intros i Hi.
  destruct (Hrows i Hi) as (w & Hw & Hentry).
  apply wrap_some_iff in Hw as [Hwc Hw].
  assert (Hin : (0 <= nth i targets_l 0 < Z.of_nat c)%Z).
  { rewrite Forall_forall in Hts. apply Hts, nth_In. lia. }
  replace (Z.to_nat (nth i targets_l 0%Z)) with w by lia.
  rewrite (sum_upto_ext _ _
             (fun k => ln (entry (softmax outputs_x) i k)
                       * (if (k =? w)%nat then 1 else 0)))
    by (intros k _; now rewrite Hentry).
  now apply sum_upto_pick.
Qed.

Lemma call_on_one_hot_is_cross_entropy_witness :
  exists oh Lx Lu weight,
    targets_l_oh 2 2 [0; 1]%Z = Some oh
    /\ call (mk 75 1000) [[0; 1]; [2; 2]] oh [[0; 0]] [[0.5; 0.5]] 3
       = Some (Lx, Lu, weight)
    /\ Lx = - (sum_upto 2 (fun i =>
                 ln (entry (softmax [[0; 1]; [2; 2]]) i
                           (Z.to_nat (nth i [0; 1]%Z 0%Z))))
               / INR 2).
Proof.
  apply (call_on_one_hot_is_cross_entropy (mk 75 1000) 2 2);
    try reflexivity.
  - repeat constructor; lia.
  - split; [reflexivity | repeat constructor].
Defined.

End CrossEntropy.

(** ** The training loss of the routine (lines 89-96) *)

Section RoutineLoss.

Import Train SemiLoss.

Lemma labeled_term_nonneg (outputs_x targets_x : matrix) :
  Forall (Forall (fun x => 0 <= x)) targets_x ->
  0 <= - mean1 (sum_dim1 (map2 (map2 Rmult)
                            (log_softmax outputs_x) targets_x)).
Proof.
  intros Htx.
  assert (H : mean1 (sum_dim1 (map2 (map2 Rmult)
                                 (log_softmax outputs_x) targets_x)) <= 0).
  { apply mean1_nonpos. unfold sum_dim1. apply Forall_map.
    apply (Forall_map2 (Forall (fun y => y <= 0))
                       (Forall (fun x => 0 <= x))).
    - intros lrow trow Hl Ht. apply Rsum_nonpos.
      apply (Forall_map2 (fun y => y <= 0) (fun x => 0 <= x));
        [|exact Hl|exact Ht].
      intros a b Ha Hb. nra.
    - unfold log_softmax. apply Forall_map, Forall_forall.
      intros row _. apply log_softmax_row_nonpos.
    - exact Htx. }
  lra.
Qed.

Lemma unlabeled_term_nonneg (outputs_u targets_u : matrix) :
  0 <= mean (square (map2 (map2 Rminus) (softmax outputs_u) targets_u)).
Proof.
  unfold mean. apply mean1_nonneg.
  apply Forall_concat. unfold square. apply Forall_map, Forall_forall.
  intros row _. apply Forall_map, Forall_forall.
  intros x _. nra.
Qed.

(** X23.  The loss that the routine hands to the optimizer,
    [Ll + w * Lu], is computed and is not negative, for a horizon other than
    0, a weight [lambda_u] that is not negative and labeled targets without
    negative entries. *)
Theorem losses_classifier_nonnegative
  (loss : t) (train_epochs info_epoch info_data_steps : R)
  (logits_l mixed_target_l logits_u mixed_target_u : matrix) :
  train_epochs <> 0 ->
  0 <= lambda_u loss ->
  Matrix.same_shape logits_l mixed_target_l = true ->
  Matrix.same_shape logits_u mixed_target_u = true ->
  Forall (Forall (fun x => 0 <= x)) mixed_target_l ->
  exists total,
    losses_classifier loss train_epochs info_epoch info_data_steps
      logits_l mixed_target_l logits_u mixed_target_u = Some total
    /\ 0 <= total.
Proof.
  intros HE Hlam Hl Hu Htg.
  unfold losses_classifier.
  destruct (Req_dec_T train_epochs 0) as [Hz | _]; [contradiction|].
  rewrite call_shapes by assumption. simpl.
  eexists. split; [reflexivity|].
  pose proof (labeled_term_nonneg logits_l mixed_target_l Htg) as H1.
  pose proof (unlabeled_term_nonneg logits_u mixed_target_u) as H2.
  pose proof (linear_rampup_range
                (info_epoch + info_data_steps / train_epochs) (epochs loss))
    as H3.
  assert (0 <= lambda_u loss
               * linear_rampup (info_epoch + info_data_steps / train_epochs)
                   (epochs loss)) by nra.
  nra.
Qed.

Lemma losses_classifier_nonnegative_witness :
  exists total,
    losses_classifier (mk 75 1000) 1000 3 200
      [[0; 1]] [[1; 0]] [[0; 0]] [[0.25; 0.75]] = Some total
    /\ 0 <= total.
Proof.
  apply (losses_classifier_nonnegative (mk 75 1000) 1000 3 200);
    try reflexivity; try lra.
  - simpl. lra.
  - repeat constructor; lra.
Defined.

(** X24.  The progress that the routine passes to the loss is
    [epoch + data_steps / epochs], and the loss divides it by [epochs] once
    more: with the loss built on the same positive [epochs], the unlabeled
    term enters the training loss with the weight
    [lambda_u * clamp((epoch + data_steps / epochs) / epochs)], which is the
    whole of [lambda_u] only once [epoch] has reached [epochs]. *)
Theorem losses_classifier_weight
  (loss : t) (train_epochs info_epoch info_data_steps : R)
  (logits_l mixed_target_l logits_u mixed_target_u : matrix) :
  0 < train_epochs ->
  epochs loss = train_epochs ->
  Matrix.same_shape logits_l mixed_target_l = true ->
  Matrix.same_shape logits_u mixed_target_u = true ->
  exists Ll Lu w,
    call loss logits_l mixed_target_l logits_u mixed_target_u
         (info_epoch + info_data_steps / train_epochs) = Some (Ll, Lu, w)
    /\ losses_classifier loss train_epochs info_epoch info_data_steps
         logits_l mixed_target_l logits_u mixed_target_u
       = Some (Ll + w * Lu)
    /\ w = lambda_u loss
           * clamp01 ((info_epoch + info_data_steps / train_epochs)
                      / train_epochs)
    /\ (train_epochs <= info_epoch -> 0 <= info_data_steps ->
        w = lambda_u loss).
Proof.
  intros HE Hsame Hl Hu.
  unfold losses_classifier.
  destruct (Req_dec_T train_epochs 0) as [Hz | _]; [lra|].
  rewrite call_shapes by assumption. simpl.
  do 3 eexists. split; [reflexivity|]. split; [reflexivity|].
  unfold linear_rampup. rewrite Hsame.
  destruct (Req_dec_T train_epochs 0) as [Hz | _]; [lra|].
  rewrite np_clip_clamp01. split; [reflexivity|].
  intros Hlate Hsteps.
  assert (Hfrac : 1 <= (info_epoch + info_data_steps / train_epochs)
                       / train_epochs).
  { assert (0 <= info_data_steps / train_epochs).
    { unfold Rdiv. apply Rmult_le_pos; [exact Hsteps|].
      apply Rlt_le, Rinv_0_lt_compat, HE. }
    apply (Rmult_le_reg_r train_epochs); [exact HE|].
    unfold Rdiv at 1. rewrite Rmult_assoc, Rinv_l, Rmult_1_r by lra.
    lra. }
  unfold clamp01.
  destruct (Rlt_dec _ 0); [lra|].
  destruct (Rlt_dec 1 _); [ring|].
  replace ((info_epoch + info_data_steps / train_epochs) / train_epochs)
    with 1 by lra.
  ring.
Qed.

Lemma losses_classifier_weight_witness :
  exists Ll Lu w,
    call (mk 75 4) [[0; 1]] [[1; 0]] [[0; 0]] [[0.25; 0.75]] (4 + 2 / 4)
    = Some (Ll, Lu, w)
    /\ losses_classifier (mk 75 4) 4 4 2
         [[0; 1]] [[1; 0]] [[0; 0]] [[0.25; 0.75]] = Some (Ll + w * Lu)
    /\ w = 75.
Proof.
  assert (HE : 0 < 4) by lra.
  destruct (losses_classifier_weight (mk 75 4) 4 4 2
              [[0; 1]] [[1; 0]] [[0; 0]] [[0.25; 0.75]]
              HE eq_refl eq_refl eq_refl)
    as (Ll & Lu & w & Hcall & Hloss & _ & Hfull).
  exists Ll, Lu, w. split; [exact Hcall|]. split; [exact Hloss|].
  apply Hfull; lra.
Defined.

End RoutineLoss.
